(** * PerfectNumbersRoot.c: perfect numbers and the Babylonian square root

    A shallow embedding of [PerfectNumbersRoot.c].  The integer half of the
    program ([isPerfectNumber], [displayFactors], the scan of [main]) is
    modelled over [Z] with the 32-bit wrap-around of [int] written out.  The
    floating-point half ([getInitialGuess], [computeSquareRoot]) is written
    once over an arithmetic interface.  The program is that code read in IEEE
    754 binary formats; the same code read in exact real arithmetic is the
    method the source cites, kept for comparison. *)

From Stdlib Require Import ZArith List Bool Lia Sorted Reals Lra.
From Stdlib Require Import Floats.SpecFloat.
Import ListNotations.
Open Scope Z_scope.

(** ** The [#define]s of the source *)

Definition NO_ERRORS : Z := 0.
Definition PRECISION : Z := 15.
Definition BASE_E : Z := 10.
Definition RANGE_UPPER_BOUND : Z := 10000.
Definition RANGE_LOWER_BOUND : Z := 1.
Definition TRUE : Z := 1.
Definition FALSE : Z := 0.

(** ** C [int] arithmetic: 32 bits, two's complement *)

Module Int.
Definition half_modulus : Z := Eval cbv in 2 ^ 31.
Definition mask : Z := Eval cbv in Z.ones 32.
Definition min_signed : Z := - half_modulus.
Definition max_signed : Z := half_modulus - 1.

(** The representative of [z] modulo [2^32] in the signed range: the low
    32 bits of [z + 2^31], shifted back. *)
Definition wrap (z : Z) : Z := Z.land (z + half_modulus) mask - half_modulus.

Definition add (a b : Z) : Z := wrap (a + b).
Definition sub (a b : Z) : Z := wrap (a - b).
(** [/] and [%] truncate towards zero. *)
Definition div (a b : Z) : Z := wrap (Z.quot a b).
Definition rem (a b : Z) : Z := Z.rem a b.

Definition in_range (z : Z) : Prop := min_signed <= z <= max_signed.
End Int.

(** ** Counted loops

    [for (count = first; count <= bound; count++) body] with a bound that the
    body does not change.  The guard is tested before every round; [fuel] only
    makes the recursion structural and [for_fuel] always covers the trip
    count. *)

Fixpoint for_upto {St : Type} (fuel : nat) (count bound : Z)
         (body : Z -> St -> St) (st : St) : St :=
  match fuel with
  | O => st
  | S fuel' =>
      if count <=? bound
      then for_upto fuel' (Int.add count 1) bound body (body count st)
      else st
  end.

Definition for_fuel (first bound : Z) : nat := Z.to_nat (bound - first + 1).

Definition for_loop {St : Type} (first bound : Z) (body : Z -> St -> St) (st : St) : St :=
  for_upto (for_fuel first bound) first bound body st.

(** ** [isPerfectNumber]

    The guard [count <= sqrt(number)] compares an [int] with the [double]
    square root of an [int]; for 32-bit operands that is [count <= Z.sqrt
    number], and for a negative [number] both are false ([sqrt] is NaN there,
    [Z.sqrt] is 0 and [count] starts at 1).

    The state of the loop is the running [sum] together with the list of trial
    divisors on which [number % count] was evaluated. *)

Record tester_state := { sum : Z; trials : list Z }.

Definition tester_body (number count : Z) (st : tester_state) : tester_state :=
  let tried := trials st ++ [count] in
  if Int.rem number count =? 0 then
    let pair := Int.div number count in
    if count =? pair
    then {| sum := Int.add (sum st) count; trials := tried |}
    else {| sum := Int.add (Int.add (sum st) count) pair; trials := tried |}
  else {| sum := sum st; trials := tried |}.

(** The loop and the [sum -= number] that follows it. *)
Definition pairedDivisorSum (number : Z) : tester_state :=
  let st := for_loop 1 (Z.sqrt number) (tester_body number) {| sum := 0; trials := [] |} in
  {| sum := Int.sub (sum st) number; trials := trials st |}.

Definition isPerfectNumber_run (number : Z) : Z * list Z :=
  if Int.rem number 2 =? 1 then (FALSE, [])
  else
    let st := pairedDivisorSum number in
    if sum st =? number then (TRUE, trials st) else (FALSE, trials st).

Definition isPerfectNumber (number : Z) : Z := fst (isPerfectNumber_run number).

(** ** [displayFactors]: the numbers printed after [=], in order *)

Definition factors_body (perfectNumber count : Z) (printed : list Z) : list Z :=
  if Int.rem perfectNumber count =? 0 then printed ++ [count] else printed.

Definition displayFactors (perfectNumber : Z) : list Z :=
  for_loop 2 (Int.div perfectNumber 2) (factors_body perfectNumber) [1].

(** ** [main]: the calls made for the candidates, in order

    The [int] candidate is converted to [double] at the two square-root
    calls; the events record the candidate. *)

Inductive call :=
| DisplayFactors (perfectNumber : Z)
| DisplayExpectedSqrt (radicand : Z)
| ComputeSquareRoot (radicand : Z).

Definition main_body (count : Z) (log : list call) : list call :=
  if negb (isPerfectNumber count =? 0)
  then log ++ [DisplayFactors count; DisplayExpectedSqrt count; ComputeSquareRoot count]
  else log.

Definition main_calls : list call :=
  for_loop RANGE_LOWER_BOUND RANGE_UPPER_BOUND main_body [].

Definition solver_radicands (log : list call) : list Z :=
  flat_map (fun c => match c with ComputeSquareRoot r => [r] | _ => [] end) log.

(** * The floating-point half: [getInitialGuess] and [computeSquareRoot]

    The two functions are written once over the operations of C they use.
    [double] and [long double] are separate carriers: the source mixes them,
    and every implicit conversion is explicit here. *)

Class CFloat := {
  double : Type;
  ldouble : Type;
  (** conversions: [int] to [double] (also used for the literals [0.0],
      [1.0], [2.0]), [double] to [long double], [long double] to [double] *)
  double_of_int : Z -> double;
  widen : double -> ldouble;
  narrow : ldouble -> double;
  (** [double] arithmetic *)
  ddiv : double -> double -> double;
  dgt : double -> double -> bool;
  (** [long double] arithmetic *)
  ladd : ldouble -> ldouble -> ldouble;
  lsub : ldouble -> ldouble -> ldouble;
  lmul : ldouble -> ldouble -> ldouble;
  ldiv : ldouble -> ldouble -> ldouble;
  (** [<math.h>], all on [double] *)
  log10 : double -> double;
  ceil : double -> double;
  pow : double -> double -> double;
  fabs : double -> double
}.

(** The variables of [computeSquareRoot] that the loop changes, over the
    carrier [L] of [long double]. *)
Record solver_state (L : Type) := { guess : L; previousGuess : L; iterations : Z }.
Arguments guess {L}.
Arguments previousGuess {L}.
Arguments iterations {L}.

(** What a call leaves behind: the [long double] printed with [%.15Lf], the
    printed iteration count, and the [double] returned. *)
Record solver_report (L D : Type) := { shown : L; reached : Z; returned : D }.
Arguments shown {L D}.
Arguments reached {L D}.
Arguments returned {L D}.

Section Solver.
Context {F : CFloat}.

Definition getInitialGuess (radicand : double) : double :=
  let digits := ceil (log10 radicand) in
  let result := pow (double_of_int BASE_E) (ddiv digits (double_of_int 2)) in
  result.

(** [limit = pow(BASE_E, PRECISION * -1)] *)
Definition limit : double :=
  pow (double_of_int BASE_E) (double_of_int (Int.wrap (PRECISION * -1))).

(** The body of the [do] loop. *)
Definition refine (radicand : double) (st : solver_state ldouble)
  : solver_state ldouble :=
  {| previousGuess := guess st;
     guess := lmul (widen (ddiv (double_of_int 1) (double_of_int 2)))
                   (ladd (guess st) (ldiv (widen radicand) (guess st)));
     iterations := Int.add (iterations st) 1 |}.

(** The test [fabs(previousGuess - guess) > limit]; [fabs] takes a
    [double], so the difference is converted first. *)
Definition keep_going (st : solver_state ldouble) : bool :=
  dgt (fabs (narrow (lsub (previousGuess st) (guess st)))) limit.

(** [do body while (test)]: the body runs before the first test.  [None]
    when [fuel] rounds did not reach a failing test. *)
Fixpoint do_while (fuel : nat) (radicand : double) (st : solver_state ldouble)
  : option (solver_state ldouble) :=
  match fuel with
  | O => None
  | S fuel' =>
      let st' := refine radicand st in
      if keep_going st' then do_while fuel' radicand st' else Some st'
  end.

Definition initial_state (radicand : double) : solver_state ldouble :=
  {| guess := widen (getInitialGuess radicand);
     previousGuess := widen (double_of_int 0);
     iterations := 1 |}.

Definition computeSquareRoot (fuel : nat) (radicand : double)
  : option (solver_report ldouble double) :=
  match do_while fuel radicand (initial_state radicand) with
  | Some st => Some {| shown := guess st; reached := iterations st;
                       returned := narrow (guess st) |}
  | None => None
  end.

(** The guesses of the refinement, counted from the initial one. *)
Definition nth_state (radicand : double) (k : nat) : solver_state ldouble :=
  Nat.iter k (refine radicand) (initial_state radicand).
(** [stops_at radicand st n]: counted from [st], round [n] is the first
    whose test fails. *)
Definition stops_at (radicand : double) (st : solver_state ldouble) (n : nat) : Prop :=
  (1 <= n)%nat /\
  keep_going (Nat.iter n (refine radicand) st) = false /\
  forall k, (1 <= k < n)%nat -> keep_going (Nat.iter k (refine radicand) st) = true.
End Solver.

(** ** Reading 1: exact real arithmetic

    Both carriers are [R], conversions do nothing, [log10 x] is
    [ln x / ln 10] and [pow] is [Rpower].  This is the method without
    rounding, not the arithmetic of the program: the two differ on concrete
    [double]s (see [initial_guess_after_ten] and [stops_above_the_limit]). *)

Definition Zceil (x : R) : Z := (1 - up (- x))%Z.

Definition Exact : CFloat := {|
  double := R;
  ldouble := R;
  double_of_int := IZR;
  widen := fun x => x;
  narrow := fun x => x;
  ddiv := Rdiv;
  dgt := fun a b => if Rlt_dec b a then true else false;
  ladd := Rplus;
  lsub := Rminus;
  lmul := Rmult;
  ldiv := Rdiv;
  log10 := fun x => (ln x / ln 10)%R;
  ceil := fun x => IZR (Zceil x);
  pow := Rpower;
  fabs := Rabs
|}.

(** ** Reading 2: IEEE 754 binary formats

    The arithmetic of the program.  [double] is binary64.  [long double] is a parameter: the 80-bit x87
    format of the machine the source was written for, binary64 where
    [long double] is [double], or binary128.  Arithmetic rounds to nearest,
    ties to even. *)

Record format := { prec : Z; emax : Z }.

Definition binary64 : format := {| prec := 53; emax := 1024 |}.
Definition x87_extended : format := {| prec := 64; emax := 16384 |}.
Definition binary128 : format := {| prec := 113; emax := 16384 |}.

Definition long_double_formats : list format := [x87_extended; binary64; binary128].

(** Rounding a value into a format; exact when the format is wide enough. *)
Definition round_to (f : format) (x : spec_float) : spec_float :=
  SFldexp (prec f) (emax f) x 0.

Definition float_of_Z (f : format) (z : Z) : spec_float :=
  binary_normalize (prec f) (emax f) z 0 false.

(** [ceil] on binary64, exact. *)
Definition SFceil (x : spec_float) : spec_float :=
  match x with
  | S754_finite s m e =>
      if 0 <=? e then x
      else
        let q := Z.shiftr (Zpos m) (- e) in
        if s then binary_normalize 53 1024 (- q) 0 true
        else binary_normalize 53 1024
               (if Z.shiftl q (- e) =? Zpos m then q else q + 1) 0 false
  | _ => x
  end.

(** The two functions of libm whose results are not fixed by IEEE 754. *)
Record libm := {
  lm_log10 : spec_float -> spec_float;
  lm_pow : spec_float -> spec_float -> spec_float
}.

Definition IEEE (ld : format) (lm : libm) : CFloat := {|
  double := spec_float;
  ldouble := spec_float;
  double_of_int := float_of_Z binary64;
  widen := round_to ld;
  narrow := round_to binary64;
  ddiv := SFdiv 53 1024;
  dgt := fun a b => SFltb b a;
  ladd := SFadd (prec ld) (emax ld);
  lsub := SFsub (prec ld) (emax ld);
  lmul := SFmul (prec ld) (emax ld);
  ldiv := SFdiv (prec ld) (emax ld);
  log10 := lm_log10 lm;
  ceil := SFceil;
  pow := lm_pow lm;
  fabs := SFabs
|}.

(** *** A reference libm

    [log10] and [pow] evaluated in binary fixed point with [frac_bits]
    fractional bits on [work_bits]-bit intermediate values, then rounded to
    binary64; special values as in Annex F of the C standard.  [pow] covers
    positive bases, which is all the program uses (its base is [BASE_E]);
    other bases yield NaN here. *)

Definition work_bits : Z := 160.
Definition frac_bits : nat := 96.

(** Binary digits of [log2 (y / 2^work_bits)] for [1 <= y / 2^work_bits < 2],
    by repeated squaring. *)
Fixpoint log2_digits (n : nat) (y acc : Z) : Z :=
  match n with
  | O => acc
  | S n' =>
      let y2 := Z.shiftr (y * y) work_bits in
      if Z.shiftl 1 (work_bits + 1) <=? y2
      then log2_digits n' (Z.shiftr y2 1) (2 * acc + 1)
      else log2_digits n' y2 (2 * acc)
  end.

(** [log2 (m * 2^e)], scaled by [2^frac_bits]. *)
Definition log2_fixed (m : positive) (e : Z) : Z :=
  let d := Z.log2 (Zpos m) in
  Z.shiftl (e + d) (Z.of_nat frac_bits)
  + log2_digits frac_bits (Z.shiftl (Zpos m) (work_bits - d)) 0.

Definition log2_of_10 : Z := Eval vm_compute in log2_fixed 10 0.

Definition ref_log10 (x : spec_float) : spec_float :=
  match x with
  | S754_nan => S754_nan
  | S754_infinity false => x
  | S754_infinity true => S754_nan
  | S754_zero _ => S754_infinity true
  | S754_finite true _ _ => S754_nan
  | S754_finite false m e =>
      binary_normalize 53 1024 (Z.shiftl (log2_fixed m e) 128 / log2_of_10) (-128) false
  end.

(** [2^(f / 2^frac_bits)] for [0 <= f < 2^frac_bits], scaled by
    [2^work_bits]: the product of the roots [2^(1/2^i)] selected by the bits
    of [f]. *)
Fixpoint exp2_digits (n : nat) (root f i acc : Z) : Z :=
  match n with
  | O => acc
  | S n' =>
      let root' := Z.sqrt (Z.shiftl root work_bits) in
      exp2_digits n' root' f (i + 1)
        (if Z.testbit f (Z.of_nat frac_bits - i)
         then Z.shiftr (acc * root') work_bits else acc)
  end.

(** [2^(z / 2^frac_bits)] rounded to binary64. *)
Definition exp2_fixed (z : Z) : spec_float :=
  let whole := Z.shiftr z (Z.of_nat frac_bits) in
  let f := Z.land z (Z.ones (Z.of_nat frac_bits)) in
  if 2000 <? whole then S754_infinity false
  else if whole <? -2000 then S754_zero false
  else binary_normalize 53 1024
         (exp2_digits frac_bits (Z.shiftl 2 work_bits) f 1 (Z.shiftl 1 work_bits))
         (whole - work_bits) false.

Definition SFone : spec_float := float_of_Z binary64 1.

Definition ref_pow (b y : spec_float) : spec_float :=
  match b, y with
  | _, S754_zero _ => SFone
  | S754_finite false 4503599627370496 (-52), _ => SFone
  | S754_nan, _ | _, S754_nan => S754_nan
  | S754_finite false m e, S754_finite sy my ey =>
      exp2_fixed (Z.shiftl ((if sy then Zneg my else Zpos my) * log2_fixed m e) ey)
  | S754_finite false m e, S754_infinity sy =>
      if xorb sy (0 <? log2_fixed m e) then S754_infinity false else S754_zero false
  | S754_infinity false, S754_finite sy _ _
  | S754_infinity false, S754_infinity sy =>
      if sy then S754_zero false else S754_infinity false
  | _, _ => S754_nan
  end.

Definition ref_libm : libm := {| lm_log10 := ref_log10; lm_pow := ref_pow |}.

(** ** The reference definitions of the specification *)

(** [sum(d for d in 1..n-1 if n % d == 0)], by a scan over [1..n-1]. *)
Fixpoint Zseq (first : Z) (len : nat) : list Z :=
  match len with
  | O => []
  | S len' => first :: Zseq (first + 1) len'
  end.

Definition Zsum (f : Z -> Z) (l : list Z) : Z :=
  fold_right (fun d acc => f d + acc) 0 l.

Definition divisor_term (n d : Z) : Z := if n mod d =? 0 then d else 0.

Definition naive_divisor_sum (n : Z) : Z :=
  Zsum (divisor_term n) (Zseq 1 (Z.to_nat (n - 1))).

Definition is_perfect_ref (n : Z) : bool := naive_divisor_sum n =? n.


(** What one round of the tester adds to [sum], without wrap-around. *)
Definition pair_term (n d : Z) : Z :=
  if Z.rem n d =? 0 then
    if d =? Z.quot n d then d else d + Z.quot n d
  else 0.

(** The cofactor [n/d] of a divisor [d] below the square root, when it is
    not [d] itself. *)
Definition cofactor_term (n d : Z) : Z :=
  if n mod d =? 0 then if d =? n / d then 0 else n / d else 0.

(** The sum of all divisors of [n], [n] included. *)
Definition sigma (n : Z) : Z := Zsum (divisor_term n) (Zseq 1 (Z.to_nat n)).

(** The candidates of the default range. *)
Definition candidates : list Z :=
  Zseq RANGE_LOWER_BOUND (Z.to_nat (RANGE_UPPER_BOUND - RANGE_LOWER_BOUND + 1)).


(** The contract of [proper_divisors], in the words of the specification:
    strictly ascending, starting with 1, without [n] itself, and after the 1
    exactly the integers from 2 up to [n/2] that divide [n]. *)
Definition proper_divisors_contract (n : Z) (l : list Z) : Prop :=
  StronglySorted Z.lt l /\
  hd_error l = Some 1 /\
  ~ In n l /\
  (forall d, In d (tl l) <-> 2 <= d <= n / 2 /\ n mod d = 0).

(** ** Notions used to state the properties of the IEEE reading *)

(** The real number a finite float stands for (0 for the others). *)
Definition SF2R (x : spec_float) : R :=
  match x with
  | S754_finite s m e => ((if s then -1 else 1) * IZR (Zpos m) * powerRZ 2 e)%R
  | _ => 0%R
  end.

(** [|x - sqrt n| <= 10^-15] decided in integers, for [x = m / 2^k]:
    [(m * 10^15 - 2^k)^2 <= n * (2^k * 10^15)^2 <= (m * 10^15 + 2^k)^2]. *)
Definition close_to_sqrt (n : Z) (x : spec_float) : bool :=
  match x with
  | S754_finite false m (Zneg k) =>
      let p := 2 ^ Zpos k in
      let t := 10 ^ 15 in
      (p <=? Zpos m * t)
      && ((Zpos m * t - p) ^ 2 <=? n * (p * t) ^ 2)
      && (n * (p * t) ^ 2 <=? (Zpos m * t + p) ^ 2)
  | _ => false
  end.

(** The binary64 numbers at most two units in the last place away from [x]. *)
Definition within_2ulp (x : spec_float) : list spec_float :=
  [SFpred 53 1024 (SFpred 53 1024 x); SFpred 53 1024 x; x;
   SFsucc 53 1024 x; SFsucc 53 1024 (SFsucc 53 1024 x)].

Definition is_nan (x : spec_float) : bool :=
  match x with S754_nan => true | _ => false end.

Definition positive_finite (x : spec_float) : bool :=
  match x with S754_finite false _ _ => true | _ => false end.

(** [radicand <= 0]: the zeros, the negative numbers and minus infinity. *)
Definition non_positive (radicand : spec_float) : bool :=
  SFleb radicand (S754_zero false).

(** What Annex F of the C standard fixes for [log10] and [pow] at the
    arguments a non-positive radicand leads to. *)
Definition annex_F (lm : libm) : Prop :=
  (forall s, lm_log10 lm (S754_zero s) = S754_infinity true) /\
  (forall m e, lm_log10 lm (S754_finite true m e) = S754_nan) /\
  lm_log10 lm (S754_infinity true) = S754_nan /\
  lm_pow lm (float_of_Z binary64 BASE_E) (S754_infinity true) = S754_zero false /\
  lm_pow lm (float_of_Z binary64 BASE_E) S754_nan = S754_nan.

(** The libm that answers [lim] for a negative exponent and [g0] otherwise:
    it stands for any libm under which the initial guess is [g0] and the
    limit is [lim]. *)
Definition fixed_libm (g0 lim : spec_float) : libm :=
  {| lm_log10 := fun _ => SFone;
     lm_pow := fun _ y => match y with S754_finite true _ _ => lim | _ => g0 end |}.

(** A call that returns, and returns NaN, with nothing else to tell the
    caller: the report has no error value. *)
Definition silent_nan (o : option (solver_report spec_float spec_float)) : Prop :=
  exists rep, o = Some rep /\ shown rep = S754_nan /\ returned rep = S754_nan.

(** The guard [count <= sqrt(number)] of the tester evaluated in binary64, as
    the source does, against the integer guard of the model, for the counts
    of [counts], each given with its conversion to [double]. *)
Definition guard_agrees (counts : list (Z * spec_float)) (number : Z) : bool :=
  let root := SFsqrt 53 1024 (float_of_Z binary64 number) in
  let bound := Z.sqrt number in
  forallb (fun c => Bool.eqb (SFleb (snd c) root) (fst c <=? bound)) counts.

(** ** [displayExpectedSqrt] and the decimals that [printf] shows

    [displayExpectedSqrt] prints [sqrtl(radicand)]: the radicand is converted
    to [long double] and the root is the correctly rounded one. *)
Definition displayExpectedSqrt (ld : format) (radicand : spec_float) : spec_float :=
  SFsqrt (prec ld) (emax ld) (round_to ld radicand).

(** The quotient [a / b] rounded to the nearest integer, ties to even, for
    [b > 0]. *)
Definition round_div (a b : Z) : Z :=
  let q := a / b in
  match 2 * (a mod b) ?= b with
  | Lt => q
  | Gt => q + 1
  | Eq => if Z.even q then q else q + 1
  end.

(** What [printf("%.*Lf", PRECISION, x)] shows of a finite [x]: the exact
    value times [10^PRECISION], rounded to the nearest integer. *)
Definition decimals15 (x : spec_float) : option Z :=
  match x with
  | S754_zero _ => Some 0
  | S754_finite s m e =>
      let n := Zpos m * 10 ^ PRECISION in
      let v := if 0 <=? e then n * 2 ^ e else round_div n (2 ^ (- e)) in
      Some (if s then - v else v)
  | _ => None
  end.

(** A libm that is accurate where the solver uses it on [radicand], a number
    of [digits] decimal digits: [log10] rounds up to [digits], and
    [pow(10, digits/2)] and [pow(10, -15)] are within two units in the last
    place of the correctly rounded values. *)
Definition libm_close_at (lm : libm) (radicand digits : Z) : Prop :=
  SFceil (lm_log10 lm (float_of_Z binary64 radicand)) = float_of_Z binary64 digits /\
  In (lm_pow lm (float_of_Z binary64 BASE_E)
        (SFdiv 53 1024 (float_of_Z binary64 digits) (float_of_Z binary64 2)))
     (within_2ulp (SFsqrt 53 1024 (float_of_Z binary64 (10 ^ digits)))) /\
  In (lm_pow lm (float_of_Z binary64 BASE_E) (float_of_Z binary64 (-15)))
     (within_2ulp (SFdiv 53 1024 SFone (float_of_Z binary64 (10 ^ 15)))).

(** What Annex F fixes for [log10] and [pow] at plus infinity and NaN. *)
Definition annex_F_nonfinite (lm : libm) : Prop :=
  lm_log10 lm (S754_infinity false) = S754_infinity false /\
  lm_log10 lm S754_nan = S754_nan /\
  lm_pow lm (float_of_Z binary64 BASE_E) (S754_infinity false) = S754_infinity false /\
  lm_pow lm (float_of_Z binary64 BASE_E) S754_nan = S754_nan.

(** The three calls [main] makes for an accepted candidate. *)
Definition report_calls (count : Z) : list call :=
  [DisplayFactors count; DisplayExpectedSqrt count; ComputeSquareRoot count].

(** ** Inputs and notions of the later properties of the solver *)


(** The radicand 3.6754446796632406e-30. *)
Definition tiny_radicand : spec_float := S754_finite false 5245769938717756 (-150).






(** The least [k] with [n <= 10^k], for [1 <= n <= 10^20]: the exact
    [ceil(log10 n)]. *)
Definition ceil_log10 (n : Z) : Z :=
  Z.of_nat (length (filter (fun k => 10 ^ k <? n) (Zseq 0 20))).

(** A libm that rounds correctly where the solver uses it on [radicand], a
    number of [digits] decimal digits: [log10] rounds up to [digits],
    [pow(10, digits/2)] is the square root of [10^digits] as [sqrt] rounds it,
    and [pow(10, -15)] is the quotient [1 / 10^15] as the division rounds
    it. *)
Definition libm_exact_at (lm : libm) (radicand digits : Z) : Prop :=
  SFceil (lm_log10 lm (float_of_Z binary64 radicand)) = float_of_Z binary64 digits /\
  lm_pow lm (float_of_Z binary64 BASE_E)
    (SFdiv 53 1024 (float_of_Z binary64 digits) (float_of_Z binary64 2))
  = SFsqrt 53 1024 (float_of_Z binary64 (10 ^ digits)) /\
  lm_pow lm (float_of_Z binary64 BASE_E) (float_of_Z binary64 (-15))
  = SFdiv 53 1024 SFone (float_of_Z binary64 (10 ^ 15)).

(** The libm fixed to these values. *)
Definition exact_libm (digits : Z) : libm :=
  fixed_libm (SFsqrt 53 1024 (float_of_Z binary64 (10 ^ digits)))
             (SFdiv 53 1024 SFone (float_of_Z binary64 (10 ^ 15))).

(** The pairs of an initial guess and a limit that a libm accurate at a
    radicand of [digits] digits can give. *)
Definition variants (digits : Z) : list (spec_float * spec_float) :=
  list_prod (within_2ulp (SFsqrt 53 1024 (float_of_Z binary64 (10 ^ digits))))
            (within_2ulp (SFdiv 53 1024 SFone (float_of_Z binary64 (10 ^ 15)))).

(** Two positive finite numbers with the same digits. *)
Definition same_positive (x y : spec_float) : bool :=
  match x, y with
  | S754_finite false m e, S754_finite false m' e' => (m =? m')%positive && (e =? e')
  | _, _ => false
  end.

(** [x < sqrt n] decided in integers, for [x = m / 2^k]: [m^2 < n * 4^k]. *)
Definition below_sqrt (n : Z) (x : spec_float) : bool :=
  match x with
  | S754_finite false m (Zneg k) => Zpos m ^ 2 <? n * 4 ^ Zpos k
  | _ => false
  end.

(** The state of [computeSquareRoot] before its loop, for an initial guess
    [g0]. *)
Definition first_state (ld : format) (g0 : spec_float) : solver_state spec_float :=
  {| guess := round_to ld g0;
     previousGuess := round_to ld (float_of_Z binary64 0);
     iterations := 1 |}.

(** The guess after [rounds] rounds, provided no round raised it.  The body
    of the loop does not use libm. *)
Fixpoint descent (ld : format) (rounds : nat) (radicand : spec_float)
         (st : solver_state spec_float) : option spec_float :=
  match rounds with
  | O => Some (guess st)
  | S rounds' =>
      let st' := refine (F := IEEE ld ref_libm) radicand st in
      if SFleb (guess st') (guess st) then descent ld rounds' radicand st' else None
  end.

Definition descent_check (ld : format) (r : Z) (rounds : nat) (below : bool)
           (g0 : spec_float) : bool :=
  match descent ld rounds (float_of_Z binary64 r) (first_state ld g0) with
  | Some last => negb below || below_sqrt r last
  | None => false
  end.

Definition run_check (ld : format) (r : Z) (rounds : nat)
           (v : spec_float * spec_float) : bool :=
  match computeSquareRoot (F := IEEE ld (fixed_libm (fst v) (snd v))) rounds
          (float_of_Z binary64 r) return bool with
  | Some rep => reached rep =? 1 + Z.of_nat rounds
  | None => false
  end.

(** The call on the perfect square [s * s]: it returns within seven rounds,
    returns [s], and shows [s.000000000000000]. *)
Definition square_root_exact (ld : format) (s : Z) : bool :=
  match computeSquareRoot (F := IEEE ld (exact_libm (ceil_log10 (s * s)))) 7
          (float_of_Z binary64 (s * s)) return bool with
  | Some rep =>
      (2 <=? reached rep) && (reached rep <=? 8)
      && same_positive (returned rep) (float_of_Z binary64 s)
      && match decimals15 (shown rep) with
         | Some d => d =? s * 10 ^ PRECISION
         | None => false
         end
  | None => false
  end.

(** The call on [10^(2j)]: one round, and the root [10^j]. *)
Definition power_of_ten_run (ld : format) (j : Z) : bool :=
  match computeSquareRoot (F := IEEE ld (exact_libm (2 * j))) 1
          (float_of_Z binary64 (10 ^ (2 * j))) return bool with
  | Some rep =>
      (reached rep =? 2)
      && same_positive (shown rep) (round_to ld (float_of_Z binary64 (10 ^ j)))
      && same_positive (returned rep) (float_of_Z binary64 (10 ^ j))
  | None => false
  end.

(** * Properties of the integer half *)

Ltac push_IZR H :=
  repeat first [ rewrite mult_IZR in H | rewrite minus_IZR in H
               | rewrite plus_IZR in H | rewrite <- pow_IZR in H ].

Ltac split_cases :=
  repeat match goal with
         | H : _ \/ _ |- _ => destruct H as [H|H]
         | H : False |- _ => destruct H
         | H : (_, _, _) = (_, _, _) |- _ => injection H as <- <- <-
         end.

(** ** Wrap-around *)

Lemma wrap_small z : Int.in_range z -> Int.wrap z = z.
Proof.
  unfold Int.in_range, Int.wrap, Int.min_signed, Int.max_signed, Int.mask, Int.half_modulus.
  intros H. change 4294967295 with (Z.ones 32).
  rewrite Z.land_ones, Z.mod_small by lia; lia.
Qed.

(** ** Ranges and finite sums *)

Lemma In_Zseq (len : nat) : forall first x,
  In x (Zseq first len) <-> first <= x < first + Z.of_nat len.
Proof.
  induction len as [|len IH]; intros first x; simpl.
  - lia.
  - rewrite IH. lia.
Qed.

Lemma Zseq_app (a b : nat) : forall first,
  Zseq first (a + b) = Zseq first a ++ Zseq (first + Z.of_nat a) b.
Proof.
  induction a as [|a IH]; intros first.
  - simpl. f_equal. lia.
  - cbn [Nat.add Zseq app]. rewrite IH. do 3 f_equal. lia.
Qed.

Lemma Zseq_snoc (len : nat) first :
  Zseq first (S len) = Zseq first len ++ [first + Z.of_nat len].
Proof.
  replace (S len) with (len + 1)%nat by lia. now rewrite Zseq_app.
Qed.

Lemma Zsum_app f l1 l2 : Zsum f (l1 ++ l2) = Zsum f l1 + Zsum f l2.
Proof.
  induction l1 as [|d l1 IH]; simpl; [reflexivity|].
  fold (Zsum f (l1 ++ l2)) (Zsum f l1). lia.
Qed.

Lemma Zsum_cons f d l : Zsum f (d :: l) = f d + Zsum f l.
Proof. reflexivity. Qed.

Lemma Zsum_ext_in f g l :
  (forall d, In d l -> f d = g d) -> Zsum f l = Zsum g l.
Proof.
  induction l as [|d l IH]; intros H; [reflexivity|].
  rewrite !Zsum_cons, (H d), IH; auto with datatypes.
Qed.

Lemma Zsum_zero l : Zsum (fun _ => 0) l = 0.
Proof. induction l as [|d l IH]; [reflexivity|]. now rewrite Zsum_cons, IH. Qed.

Lemma Zsum_plus f g l : Zsum (fun d => f d + g d) l = Zsum f l + Zsum g l.
Proof.
  induction l as [|d l IH]; [reflexivity|].
  rewrite !Zsum_cons, IH. lia.
Qed.

Lemma Zsum_exchange (k : Z -> Z -> Z) l1 l2 :
  Zsum (fun d => Zsum (fun e => k d e) l2) l1 =
  Zsum (fun e => Zsum (fun d => k d e) l1) l2.
Proof.
  induction l1 as [|d l1 IH].
  - cbn [Zsum fold_right]. now rewrite Zsum_zero.
  - rewrite Zsum_cons, IH, <- Zsum_plus. reflexivity.
Qed.

Lemma Zsum_nonneg f l : (forall d, In d l -> 0 <= f d) -> 0 <= Zsum f l.
Proof.
  induction l as [|d l IH]; intros H; [cbn; lia|].
  rewrite Zsum_cons.
  assert (0 <= f d) by auto with datatypes.
  assert (0 <= Zsum f l) by auto with datatypes. lia.
Qed.

Lemma Zsum_le f g l :
  (forall d, In d l -> f d <= g d) -> Zsum f l <= Zsum g l.
Proof.
  induction l as [|d l IH]; intros H; [cbn; lia|].
  rewrite !Zsum_cons.
  assert (f d <= g d) by auto with datatypes.
  assert (Zsum f l <= Zsum g l) by auto with datatypes. lia.
Qed.

(** A sum that picks out the single index [c]. *)
Lemma Zsum_single (c v : Z) (len : nat) : forall first,
  Zsum (fun d => if d =? c then v else 0) (Zseq first len) =
  if (first <=? c) && (c <? first + Z.of_nat len) then v else 0.
Proof.
  induction len as [|len IH]; intros first.
  - cbn [Zseq Zsum fold_right].
    destruct (Z.leb_spec first c); destruct (Z.ltb_spec c (first + Z.of_nat 0));
      cbn [andb]; lia.
  - cbn [Zseq]. rewrite Zsum_cons, IH.
    destruct (Z.eqb_spec first c); destruct (Z.leb_spec first c);
      destruct (Z.leb_spec (first + 1) c);
      destruct (Z.ltb_spec c (first + 1 + Z.of_nat len));
      destruct (Z.ltb_spec c (first + Z.of_nat (S len)));
      cbn [andb]; lia.
Qed.

Lemma Zsum_identity_triangle (len : nat) :
  2 * Zsum (fun d => d) (Zseq 1 len) = Z.of_nat len * (Z.of_nat len + 1).
Proof.
  induction len as [|len IH]; [reflexivity|].
  rewrite Zseq_snoc, Zsum_app, Zsum_cons. cbn [Zsum fold_right]. lia.
Qed.

(** ** Counted loops as folds *)

Lemma for_upto_fold {St : Type} (body : Z -> St -> St) (bound : Z) :
  bound < Int.max_signed ->
  forall (fuel : nat) (count : Z) (st : St),
    Int.min_signed <= count ->
    (Z.to_nat (bound - count + 1) <= fuel)%nat ->
    for_upto fuel count bound body st =
    fold_left (fun st c => body c st) (Zseq count (Z.to_nat (bound - count + 1))) st.
Proof.
  intros Hb fuel. induction fuel as [|fuel IH]; intros count st Hc Hf.
  - replace (Z.to_nat (bound - count + 1)) with 0%nat by lia. reflexivity.
  - cbn [for_upto]. destruct (Z.leb_spec count bound) as [Hle|Hgt].
    + unfold Int.add. rewrite wrap_small
        by (unfold Int.in_range, Int.min_signed, Int.max_signed in *; lia).
      rewrite IH by lia.
      replace (Z.to_nat (bound - count + 1))
        with (S (Z.to_nat (bound - (count + 1) + 1))) by lia.
      reflexivity.
    + replace (Z.to_nat (bound - count + 1)) with 0%nat by lia. reflexivity.
Qed.

Lemma for_loop_fold {St : Type} (body : Z -> St -> St) (first bound : Z) (st : St) :
  Int.min_signed <= first -> bound < Int.max_signed ->
  for_loop first bound body st =
  fold_left (fun st c => body c st) (Zseq first (Z.to_nat (bound - first + 1))) st.
Proof.
  intros Hf Hb. unfold for_loop, for_fuel. now apply for_upto_fold.
Qed.

(** ** Divisor pairs *)

Lemma divisor_term_nonneg n d : 0 <= d -> 0 <= divisor_term n d.
Proof. unfold divisor_term; destruct (n mod d =? 0); lia. Qed.

Lemma divisor_term_le n d : 0 <= d -> divisor_term n d <= d.
Proof. unfold divisor_term; destruct (n mod d =? 0); lia. Qed.

Lemma pair_term_split n d :
  0 <= n -> 0 < d -> pair_term n d = divisor_term n d + cofactor_term n d.
Proof.
  intros Hn Hd. unfold pair_term, divisor_term, cofactor_term.
  rewrite Z.rem_mod_nonneg, Z.quot_div_nonneg by lia.
  destruct (n mod d =? 0); [|reflexivity].
  destruct (d =? n / d); lia.
Qed.

Lemma pair_term_nonneg n d : 0 <= n -> 0 < d -> 0 <= pair_term n d.
Proof.
  intros Hn Hd. unfold pair_term.
  assert (0 <= Z.quot n d) by (apply Z.quot_pos; lia).
  destruct (Z.rem n d =? 0); [destruct (d =? Z.quot n d)|]; lia.
Qed.

Section DivisorPairing.
Variable n : Z.
Hypothesis n_pos : 1 <= n.

Let s := Z.sqrt n.

Let s_spec : 0 <= s /\ s * s <= n < (s + 1) * (s + 1).
Proof.
  split; [apply Z.sqrt_nonneg|].
  generalize (Z.sqrt_spec n ltac:(lia)). unfold Z.succ. tauto.
Qed.

(** [kernel d e] is [e] when [d * e = n]: summed over [d] it tells whether
    [e] is a divisor, summed over [e] it gives the cofactor of [d]. *)
Let kernel (d e : Z) : Z := if d * e =? n then e else 0.

Lemma exact_division d e : 0 < e -> (d * e = n <-> n mod e = 0 /\ d = n / e).
Proof.
  intros He. split.
  - intros <-. rewrite Z.mod_mul, Z.div_mul by lia. auto.
  - intros [Hm ->]. apply Z.div_exact in Hm; lia.
Qed.

Lemma kernel_over_low e :
  s < e <= n ->
  Zsum (fun d => kernel d e) (Zseq 1 (Z.to_nat s)) = divisor_term n e.
Proof.
  intros He. unfold divisor_term. destruct (Z.eqb_spec (n mod e) 0) as [Hm|Hm].
  - rewrite (Zsum_ext_in _ (fun d => if d =? n / e then e else 0)).
    + rewrite Zsum_single.
      assert (Hq : n / e * e = n) by (apply exact_division; [lia|auto]).
      destruct (Z.leb_spec 1 (n / e)); destruct (Z.ltb_spec (n / e) (1 + Z.of_nat (Z.to_nat s)));
        cbn [andb]; try reflexivity; nia.
    + intros d _. unfold kernel.
      destruct (Z.eqb_spec (d * e) n) as [E|E]; destruct (Z.eqb_spec d (n / e)) as [E'|E'];
        try reflexivity.
      * apply exact_division in E; [tauto|lia].
      * exfalso. apply E. apply exact_division; [lia|auto].
  - rewrite (Zsum_ext_in _ (fun _ => 0)); [apply Zsum_zero|].
    intros d _. unfold kernel. destruct (Z.eqb_spec (d * e) n) as [E|E]; [|reflexivity].
    apply exact_division in E; [tauto|lia].
Qed.

Lemma kernel_over_high d :
  1 <= d <= s ->
  Zsum (fun e => kernel d e) (Zseq (s + 1) (Z.to_nat (n - s))) = cofactor_term n d.
Proof.
  intros Hd. unfold cofactor_term. destruct (Z.eqb_spec (n mod d) 0) as [Hm|Hm].
  - assert (Hq : n / d * d = n) by (apply exact_division; [lia|auto]).
    rewrite (Zsum_ext_in _ (fun e => if e =? n / d then n / d else 0)).
    + rewrite Zsum_single.
      destruct (Z.eqb_spec d (n / d)); destruct (Z.leb_spec (s + 1) (n / d));
        destruct (Z.ltb_spec (n / d) (s + 1 + Z.of_nat (Z.to_nat (n - s))));
        cbn [andb]; try reflexivity; nia.
    + intros e He. apply In_Zseq in He. unfold kernel.
      destruct (Z.eqb_spec (d * e) n) as [E|E]; destruct (Z.eqb_spec e (n / d)) as [E'|E'];
        try reflexivity.
      * exact E'.
      * exfalso. apply E'. rewrite Z.mul_comm in E. apply exact_division in E; [tauto|lia].
      * exfalso. apply E. rewrite Z.mul_comm. apply exact_division; [lia|auto].
  - rewrite (Zsum_ext_in _ (fun _ => 0)); [apply Zsum_zero|].
    intros e He. apply In_Zseq in He. unfold kernel.
    destruct (Z.eqb_spec (d * e) n) as [E|E]; [|reflexivity].
    rewrite Z.mul_comm in E. apply exact_division in E; [tauto|lia].
Qed.

(** The pairing loop visits every divisor exactly once. *)
Lemma pair_sum_sigma :
  Zsum (pair_term n) (Zseq 1 (Z.to_nat s)) = sigma n.
Proof.
  unfold sigma.
  replace (Z.to_nat n) with (Z.to_nat s + Z.to_nat (n - s))%nat by nia.
  rewrite Zseq_app, Zsum_app.
  replace (1 + Z.of_nat (Z.to_nat s)) with (s + 1) by lia.
  rewrite (Zsum_ext_in (pair_term n) (fun d => divisor_term n d + cofactor_term n d))
    by (intros d Hd; apply In_Zseq in Hd; apply pair_term_split; lia).
  rewrite Zsum_plus. f_equal.
  rewrite (Zsum_ext_in (cofactor_term n)
             (fun d => Zsum (fun e => kernel d e) (Zseq (s + 1) (Z.to_nat (n - s)))))
    by (intros d Hd; apply In_Zseq in Hd; symmetry; apply kernel_over_high; lia).
  rewrite Zsum_exchange.
  apply Zsum_ext_in. intros e He. apply In_Zseq in He.
  apply kernel_over_low. lia.
Qed.

Lemma naive_sum_sigma : naive_divisor_sum n = sigma n - n.
Proof.
  unfold naive_divisor_sum, sigma.
  replace (Z.to_nat n) with (S (Z.to_nat (n - 1))) by lia.
  rewrite Zseq_snoc, Zsum_app, Zsum_cons. cbn [Zsum fold_right].
  replace (1 + Z.of_nat (Z.to_nat (n - 1))) with n by lia.
  assert (E : divisor_term n n = n)
    by (unfold divisor_term; rewrite Z.mod_same by lia; reflexivity).
  rewrite E. lia.
Qed.

Lemma sigma_bounds : n <= sigma n /\ 2 * sigma n <= n * (n + 1).
Proof.
  split.
  - assert (0 <= naive_divisor_sum n).
    { apply Zsum_nonneg. intros d Hd. apply In_Zseq in Hd.
      apply divisor_term_nonneg. lia. }
    rewrite naive_sum_sigma in *. lia.
  - unfold sigma.
    assert (Zsum (divisor_term n) (Zseq 1 (Z.to_nat n))
            <= Zsum (fun d => d) (Zseq 1 (Z.to_nat n))).
    { apply Zsum_le. intros d Hd. apply In_Zseq in Hd. apply divisor_term_le. lia. }
    generalize (Zsum_identity_triangle (Z.to_nat n)). nia.
Qed.
End DivisorPairing.

(** ** The tester's loop computes the paired sum *)

Lemma tester_body_step (n d : Z) (st : tester_state) :
  0 <= n <= Int.max_signed -> 1 <= d -> 0 <= sum st ->
  sum st + pair_term n d <= Int.max_signed ->
  sum (tester_body n d st) = sum st + pair_term n d /\
  trials (tester_body n d st) = trials st ++ [d].
Proof.
  intros Hn Hd Hs.
  assert (Hq : 0 <= Z.quot n d <= n)
    by (split; [apply Z.quot_pos|apply Z.quot_le_upper_bound]; nia).
  unfold tester_body, pair_term, Int.rem, Int.div, Int.add.
  rewrite (wrap_small (Z.quot n d))
    by (unfold Int.in_range, Int.min_signed, Int.max_signed in *; lia).
  destruct (Z.rem n d =? 0); [destruct (d =? Z.quot n d)|]; cbn [sum trials]; intros Hmax;
    rewrite ?wrap_small
      by (rewrite ?wrap_small;
          unfold Int.in_range, Int.min_signed, Int.max_signed in *; lia);
    split; solve [reflexivity | lia].
Qed.

Lemma tester_fold (n : Z) :
  0 <= n <= Int.max_signed ->
  forall (l : list Z) (st : tester_state),
    (forall d, In d l -> 1 <= d) ->
    0 <= sum st ->
    sum st + Zsum (pair_term n) l <= Int.max_signed ->
    let st' := fold_left (fun st c => tester_body n c st) l st in
    sum st' = sum st + Zsum (pair_term n) l /\ trials st' = trials st ++ l.
Proof.
  intros Hn l. induction l as [|d l IH]; intros st Hl Hs Hmax.
  - cbn. rewrite app_nil_r. split; [lia|reflexivity].
  - cbn [fold_left]. rewrite Zsum_cons in *.
    assert (Hd : 1 <= d) by auto with datatypes.
    assert (Hrest : 0 <= Zsum (pair_term n) l).
    { apply Zsum_nonneg. intros e He. apply pair_term_nonneg; [lia|].
      assert (1 <= e) by auto with datatypes. lia. }
    assert (0 <= pair_term n d) by (apply pair_term_nonneg; lia).
    destruct (tester_body_step n d st) as [Hsum Htr]; try lia.
    destruct (IH (tester_body n d st)) as [IHs IHt]; try lia.
    + auto with datatypes.
    + cbv zeta. rewrite IHs, IHt, Hsum, Htr, <- app_assoc. split; [lia|reflexivity].
Qed.

(** Whenever the sum of all divisors fits an [int], the tester's adjusted
    sum is the sum of the proper divisors, and its trial divisors are
    [1 .. floor (sqrt n)]. *)
Lemma pairedDivisorSum_naive (n : Z) :
  1 <= n -> sigma n <= Int.max_signed ->
  sum (pairedDivisorSum n) = naive_divisor_sum n /\
  trials (pairedDivisorSum n) = Zseq 1 (Z.to_nat (Z.sqrt n)).
Proof.
  intros Hn Hfit.
  destruct (sigma_bounds n Hn) as [Hlow _].
  assert (Hsq : 0 <= Z.sqrt n <= n)
    by (split; [apply Z.sqrt_nonneg|apply Z.sqrt_le_lin; lia]).
  assert (Hsq' : Z.sqrt n < Int.max_signed).
  { destruct (Z.eq_dec n 1) as [->|Hne]; [reflexivity|].
    generalize (Z.sqrt_lt_lin n ltac:(lia)). lia. }
  unfold pairedDivisorSum. cbn [sum trials].
  rewrite for_loop_fold by (auto; discriminate).
  replace (Z.sqrt n - 1 + 1) with (Z.sqrt n) by lia.
  destruct (tester_fold n ltac:(lia) (Zseq 1 (Z.to_nat (Z.sqrt n)))
              {| sum := 0; trials := [] |}) as [Hs Ht].
  - intros d Hd. apply In_Zseq in Hd. lia.
  - cbn. lia.
  - cbn [sum]. rewrite pair_sum_sigma by lia. lia.
  - cbv zeta in Hs, Ht. cbn [sum trials] in Hs, Ht.
    rewrite Hs, Ht, pair_sum_sigma, naive_sum_sigma by lia.
    split; [|reflexivity].
    unfold Int.sub. apply wrap_small.
    unfold Int.in_range, Int.min_signed, Int.max_signed in *. lia.
Qed.

Lemma sigma_fits_in_range (n : Z) :
  1 <= n <= 65535 -> sigma n <= Int.max_signed.
Proof.
  intros Hn. destruct (sigma_bounds n ltac:(lia)) as [_ H].
  unfold Int.max_signed; cbn. nia.
Qed.

Lemma In_candidates n :
  In n candidates <-> RANGE_LOWER_BOUND <= n <= RANGE_UPPER_BOUND.
Proof.
  unfold candidates. rewrite In_Zseq.
  unfold RANGE_LOWER_BOUND, RANGE_UPPER_BOUND. lia.
Qed.

(** The candidates whose adjusted paired sum equals them, odd ones
    included: the parity shortcut discards no perfect number in the range. *)
Lemma paired_sum_scan :
  filter (fun n => sum (pairedDivisorSum n) =? n) candidates = [6; 28; 496; 8128].
Proof. vm_compute. reflexivity. Qed.

Lemma odd_candidate_not_perfect n :
  RANGE_LOWER_BOUND <= n <= RANGE_UPPER_BOUND -> Z.rem n 2 = 1 ->
  naive_divisor_sum n <> n.
Proof.
  intros Hr Hodd Hperfect.
  assert (Hin : In n (filter (fun n => sum (pairedDivisorSum n) =? n) candidates)).
  { apply filter_In. split; [now apply In_candidates|].
    unfold RANGE_LOWER_BOUND, RANGE_UPPER_BOUND in Hr.
    destruct (pairedDivisorSum_naive n) as [-> _];
      [lia|apply sigma_fits_in_range; lia|]. now apply Z.eqb_eq. }
  rewrite paired_sum_scan in Hin. cbn in Hin.
  destruct Hin as [<-|[<-|[<-|[<-|[]]]]]; discriminate Hodd.
Qed.

(** ** The factor display as a filter *)

Lemma factors_fold (n : Z) (l : list Z) : forall printed,
  fold_left (fun st c => factors_body n c st) l printed =
  printed ++ filter (fun c => Z.rem n c =? 0) l.
Proof.
  induction l as [|c l IH]; intros printed; cbn [fold_left filter].
  - now rewrite app_nil_r.
  - rewrite IH. unfold factors_body, Int.rem.
    destruct (Z.rem n c =? 0); [rewrite <- app_assoc|]; reflexivity.
Qed.

Lemma displayFactors_filter (n : Z) :
  0 <= n <= Int.max_signed ->
  displayFactors n =
  1 :: filter (fun c => Z.rem n c =? 0) (Zseq 2 (Z.to_nat (n / 2 - 1))).
Proof.
  intros Hn. unfold displayFactors, Int.div.
  rewrite Z.quot_div_nonneg by lia.
  assert (0 <= n / 2 <= n) by (split; [apply Z.div_pos|apply Z.div_le_upper_bound]; lia).
  rewrite wrap_small
    by (unfold Int.in_range, Int.min_signed, Int.max_signed in *; lia).
  rewrite for_loop_fold, factors_fold.
  - replace (n / 2 - 2 + 1) with (n / 2 - 1) by lia. reflexivity.
  - discriminate.
  - destruct (Z.eq_dec n 0) as [E|E]; [rewrite E; reflexivity|].
    generalize (Z.div_lt n 2 ltac:(lia) ltac:(lia)). lia.
Qed.

Lemma StronglySorted_Zseq (len : nat) : forall first,
  StronglySorted Z.lt (Zseq first len).
Proof.
  induction len as [|len IH]; intros first; cbn [Zseq]; constructor.
  - apply IH.
  - apply Forall_forall. intros x Hx. apply In_Zseq in Hx. lia.
Qed.

Lemma StronglySorted_filter {A} (R : A -> A -> Prop) (p : A -> bool) (l : list A) :
  StronglySorted R l -> StronglySorted R (filter p l).
Proof.
  induction 1 as [|a l Hl IH Ha]; cbn [filter]; [constructor|].
  destruct (p a); [constructor|]; auto.
  apply Forall_forall. intros x Hx. apply filter_In in Hx.
  rewrite Forall_forall in Ha. apply Ha, Hx.
Qed.


(** ** The square-root guard of the tester *)

(** For every number from 0 to [RANGE_UPPER_BOUND] and every count from 1 to
    101, one more than the largest bound of the range, the guard computed in
    binary64 is the guard of the model. *)
Lemma sqrt_guard_scan :
  forallb (guard_agrees (map (fun c => (c, float_of_Z binary64 c)) (Zseq 1 101)))
          (Zseq 0 (Z.to_nat (RANGE_UPPER_BOUND + 1))) = true.
Proof. vm_compute. reflexivity. Qed.

(** * The claims about the integer half *)

(** C1.  For every candidate [n] of the scan range the adjusted sum of the
    square-root-bounded pairing loop equals the sum of a naive scan over
    [1 .. n-1], and [isPerfectNumber n] agrees with the brute-force
    reference. *)
Theorem isPerfectNumber_agrees_with_reference (n : Z) :
  RANGE_LOWER_BOUND <= n <= RANGE_UPPER_BOUND ->
  sum (pairedDivisorSum n) = naive_divisor_sum n /\
  isPerfectNumber n = (if is_perfect_ref n then TRUE else FALSE).
Proof.
  intros Hr.
  assert (Hn : 1 <= n <= 65535) by (unfold RANGE_LOWER_BOUND, RANGE_UPPER_BOUND in Hr; lia).
  destruct (pairedDivisorSum_naive n) as [Hsum _];
    [lia|now apply sigma_fits_in_range|].
  split; [exact Hsum|].
  unfold isPerfectNumber, isPerfectNumber_run, is_perfect_ref, Int.rem.
  destruct (Z.eqb_spec (Z.rem n 2) 1) as [Hodd|Heven]; cbn [fst].
  - generalize (odd_candidate_not_perfect n Hr Hodd). intros Hne.
    destruct (Z.eqb_spec (naive_divisor_sum n) n); [contradiction|reflexivity].
  - rewrite Hsum. destruct (naive_divisor_sum n =? n); reflexivity.
Qed.

Lemma isPerfectNumber_agrees_with_reference_witness :
  sum (pairedDivisorSum 28) = naive_divisor_sum 28 /\
  isPerfectNumber 28 = (if is_perfect_ref 28 then TRUE else FALSE).
Proof.
  apply (isPerfectNumber_agrees_with_reference 28).
  unfold RANGE_LOWER_BOUND, RANGE_UPPER_BOUND. lia.
Defined.

Lemma isPerfectNumber_paired (n : Z) :
  (isPerfectNumber n =? TRUE) =
  (sum (pairedDivisorSum n) =? n) && negb (Int.rem n 2 =? 1).
Proof.
  unfold isPerfectNumber, isPerfectNumber_run.
  destruct (Int.rem n 2 =? 1); cbn [fst negb]; [now rewrite andb_false_r|].
  rewrite andb_true_r. destruct (sum (pairedDivisorSum n) =? n); reflexivity.
Qed.

Lemma isPerfectNumber_boolean (n : Z) :
  isPerfectNumber n = TRUE \/ isPerfectNumber n = FALSE.
Proof.
  unfold isPerfectNumber, isPerfectNumber_run.
  destruct (Int.rem n 2 =? 1); [now right|].
  destruct (sum (pairedDivisorSum n) =? n); [now left|now right].
Qed.

Lemma filter_andb {A} (p q : A -> bool) (l : list A) :
  filter (fun x => p x && q x) l = filter q (filter p l).
Proof.
  induction l as [|x l IH]; [reflexivity|].
  cbn [filter]. destruct (p x); cbn [andb filter]; rewrite IH; reflexivity.
Qed.

(** The accepted candidates: the scan above, less the odd ones. *)
Lemma perfect_scan :
  filter (fun n => isPerfectNumber n =? TRUE) candidates = [6; 28; 496; 8128].
Proof.
  rewrite (filter_ext _ _ isPerfectNumber_paired), filter_andb, paired_sum_scan.
  reflexivity.
Qed.

(** C2.  In the default range [[1, 10000]] the candidates accepted by
    [isPerfectNumber] are exactly 6, 28, 496 and 8128, all of them even; 1
    and 2 are rejected and 28 is accepted. *)
Theorem perfect_numbers_of_default_range :
  (forall n, RANGE_LOWER_BOUND <= n <= RANGE_UPPER_BOUND ->
             (isPerfectNumber n = TRUE <-> In n [6; 28; 496; 8128])) /\
  filter (fun n => isPerfectNumber n =? TRUE) candidates = [6; 28; 496; 8128] /\
  Forall (fun n => Z.even n = true) [6; 28; 496; 8128] /\
  isPerfectNumber 1 = FALSE /\ isPerfectNumber 2 = FALSE /\ isPerfectNumber 28 = TRUE.
Proof.
  split; [|split; [exact perfect_scan|repeat split; repeat constructor]].
  intros n Hr. rewrite <- perfect_scan, filter_In, In_candidates, Z.eqb_eq. tauto.
Qed.

Lemma perfect_numbers_of_default_range_witness :
  isPerfectNumber 496 = TRUE <-> In 496 [6; 28; 496; 8128].
Proof.
  apply (proj1 perfect_numbers_of_default_range 496).
  unfold RANGE_LOWER_BOUND, RANGE_UPPER_BOUND. lia.
Defined.

(** C5 as stated fails at [n = 1]: the literal 1 that [displayFactors]
    prints first is then [n] itself. *)
Lemma displayFactors_one_contains_itself :
  1 <= 1 /\ displayFactors 1 = [1] /\ ~ proper_divisors_contract 1 (displayFactors 1).
Proof.
  split; [lia|]. split; [reflexivity|].
  intros (_ & _ & Hnot & _). apply Hnot. left. reflexivity.
Qed.

(** C5, amended.  For every [int] [n >= 2] the sequence printed by
    [displayFactors] is strictly ascending, starts with 1, does not contain
    [n], and after the 1 holds exactly the integers from 2 up to [n/2] that
    divide [n], in increasing order; together these are all the divisors of
    [n] below [n].  For 28 it is [1, 2, 4, 7, 14], whose sum is 28. *)
Theorem displayFactors_proper_divisors :
  (forall n, 2 <= n <= Int.max_signed ->
     proper_divisors_contract n (displayFactors n) /\
     tl (displayFactors n) = filter (fun d => n mod d =? 0) (Zseq 2 (Z.to_nat (n / 2 - 1))) /\
     (forall d, In d (displayFactors n) <-> 1 <= d < n /\ n mod d = 0)) /\
  displayFactors 28 = [1; 2; 4; 7; 14] /\
  fold_right Z.add 0 (displayFactors 28) = 28.
Proof.
  split; [|split; reflexivity].
  intros n Hn.
  assert (Hfilter : displayFactors n =
            1 :: filter (fun d => n mod d =? 0) (Zseq 2 (Z.to_nat (n / 2 - 1)))).
  { rewrite displayFactors_filter by lia. f_equal.
    apply filter_ext_in. intros d Hd. apply In_Zseq in Hd.
    rewrite Z.rem_mod_nonneg by lia. reflexivity. }
  assert (Hhalf : n / 2 < n) by (apply Z.div_lt; lia).
  assert (Htail : forall d, In d (tl (displayFactors n)) <-> 2 <= d <= n / 2 /\ n mod d = 0).
  { intros d. rewrite Hfilter. cbn [tl]. rewrite filter_In, In_Zseq, Z.eqb_eq. lia. }
  split; [|split].
  - unfold proper_divisors_contract. split; [|split; [|split]].
    + rewrite Hfilter. constructor.
      * apply StronglySorted_filter, StronglySorted_Zseq.
      * apply Forall_forall. intros d Hd. apply filter_In in Hd.
        destruct Hd as [Hd _]. apply In_Zseq in Hd. lia.
    + now rewrite Hfilter.
    + rewrite Hfilter. intros [E|Hin]; [lia|].
      apply filter_In in Hin. destruct Hin as [Hin _]. apply In_Zseq in Hin. lia.
    + apply Htail.
  - now rewrite Hfilter.
  - intros d. split.
    + intros Hin. rewrite Hfilter in Hin. destruct Hin as [<-|Hin].
      * rewrite Z.mod_1_r. lia.
      * apply filter_In in Hin. destruct Hin as [Hin Hdiv].
        apply In_Zseq in Hin. apply Z.eqb_eq in Hdiv. lia.
    + intros [Hd Hdiv]. destruct (Z.eq_dec d 1) as [->|Hne].
      * rewrite Hfilter. now left.
      * assert (In d (tl (displayFactors n))); [|rewrite Hfilter in *; now right].
        apply Htail. split; [|exact Hdiv]. split; [lia|].
        apply Z.div_exact in Hdiv; [|lia].
        apply Z.div_le_lower_bound; [lia|].
        assert (2 <= n / d) by nia. nia.
Qed.

Lemma displayFactors_proper_divisors_witness :
  proper_divisors_contract 496 (displayFactors 496) /\
  tl (displayFactors 496) =
    filter (fun d => 496 mod d =? 0) (Zseq 2 (Z.to_nat (496 / 2 - 1))) /\
  (forall d, In d (displayFactors 496) <-> 1 <= d < 496 /\ 496 mod d = 0).
Proof.
  apply (proj1 displayFactors_proper_divisors 496).
  unfold Int.max_signed, Int.half_modulus. lia.
Defined.

(** C6.  For every odd positive [n], [isPerfectNumber] returns [FALSE] at
    once: no trial divisor is examined. *)
Theorem odd_rejected_without_trials (n : Z) :
  0 < n -> Z.odd n = true ->
  isPerfectNumber_run n = (FALSE, []) /\ isPerfectNumber n = FALSE.
Proof.
  intros Hpos Hodd.
  assert (E : isPerfectNumber_run n = (FALSE, [])).
  { unfold isPerfectNumber_run, Int.rem.
    rewrite Z.rem_mod_nonneg by lia.
    rewrite Zmod_odd, Hodd. reflexivity. }
  unfold isPerfectNumber. rewrite E. split; reflexivity.
Qed.

Lemma odd_rejected_without_trials_witness :
  isPerfectNumber_run 945 = (FALSE, []) /\ isPerfectNumber 945 = FALSE.
Proof.
  apply (odd_rejected_without_trials 945); [lia|reflexivity].
Defined.

(** C10.  On input 0, outside the positive domain, [isPerfectNumber]
    returns [TRUE]: 0 passes the parity test, the loop body never runs, the
    adjusted sum is 0 and equals the input. *)
Theorem zero_is_accepted :
  isPerfectNumber 0 = TRUE /\
  Int.rem 0 2 = 0 /\
  trials (pairedDivisorSum 0) = [] /\
  sum (pairedDivisorSum 0) = 0 /\
  ~ RANGE_LOWER_BOUND <= 0.
Proof.
  repeat split. unfold RANGE_LOWER_BOUND. lia.
Qed.

(** * Properties of the solver *)

(** ** The [do] loop, for any arithmetic *)

Section DoWhile.
Context {F : CFloat}.
Variable radicand : double.

Lemma do_while_stops (fuel : nat) : forall st st',
  do_while fuel radicand st = Some st' <->
  exists n, (n <= fuel)%nat /\ stops_at radicand st n /\ st' = Nat.iter n (refine radicand) st.
Proof.
  unfold stops_at.
  induction fuel as [|fuel IH]; intros st st'; cbn [do_while].
  - split; [discriminate|]. intros (n & Hn & (H1 & _) & _). lia.
  - cbv zeta. destruct (keep_going (refine radicand st)) eqn:Hk.
    + rewrite IH. split.
      * intros (n & Hn & (H1 & Hstop & Hgo) & ->).
        exists (S n). rewrite !Nat.iter_succ_r.
        split; [lia|]. split; [|reflexivity]. split; [lia|]. split; [exact Hstop|].
        intros k Hk'. destruct k as [|[|k]]; [lia|exact Hk|].
        rewrite Nat.iter_succ_r. apply Hgo. lia.
      * intros (n & Hn & (H1 & Hstop & Hgo) & ->).
        destruct n as [|[|n]]; [lia|cbn in Hstop; congruence|].
        exists (S n). rewrite <- !Nat.iter_succ_r.
        split; [lia|]. split; [|reflexivity]. split; [lia|]. split; [exact Hstop|].
        intros k Hk'. rewrite <- Nat.iter_succ_r. apply Hgo. lia.
    + split.
      * intros [= <-]. exists 1%nat.
        split; [lia|]. split; [|reflexivity]. split; [lia|]. split; [exact Hk|].
        intros k Hk'. lia.
      * intros (n & Hn & (H1 & Hstop & Hgo) & ->).
        destruct n as [|[|n]]; [lia|reflexivity|].
        specialize (Hgo 1%nat ltac:(lia)). cbn in Hgo. congruence.
Qed.

(** A failing test within [fuel] rounds makes the loop return. *)
Lemma do_while_returns (fuel : nat) : forall st j,
  (1 <= j <= fuel)%nat ->
  keep_going (Nat.iter j (refine radicand) st) = false ->
  exists st', do_while fuel radicand st = Some st'.
Proof.
  induction fuel as [|fuel IH]; intros st j Hj Hstop; [lia|].
  cbn [do_while]. cbv zeta.
  destruct (keep_going (refine radicand st)) eqn:Hk; [|eauto].
  destruct j as [|[|j]]; [lia|cbn in Hstop; congruence|].
  apply (IH _ (S j)); [lia|]. now rewrite <- Nat.iter_succ_r.
Qed.

(** More fuel does not change a result. *)
Lemma do_while_fuel_mono (fuel fuel' : nat) st st' :
  (fuel <= fuel')%nat ->
  do_while fuel radicand st = Some st' -> do_while fuel' radicand st = Some st'.
Proof.
  intros Hle H. apply do_while_stops in H. destruct H as (n & Hn & Hstop & E).
  apply do_while_stops. exists n. split; [lia|]. auto.
Qed.

Lemma stops_at_unique st n m : stops_at radicand st n -> stops_at radicand st m -> n = m.
Proof.
  unfold stops_at. intros (Hn & Hsn & Hgn) (Hm & Hsm & Hgm).
  destruct (Nat.lt_trichotomy n m) as [Hlt|[->|Hlt]]; [|reflexivity|].
  - rewrite Hgm in Hsn by lia. discriminate.
  - rewrite Hgn in Hsm by lia. discriminate.
Qed.

(** The counter starts where it is and goes up by one per round, as long
    as it stays an [int]. *)
Lemma iterations_iter (n : nat) : forall st,
  Int.min_signed <= iterations st ->
  iterations st + Z.of_nat n <= Int.max_signed ->
  iterations (Nat.iter n (refine radicand) st) = iterations st + Z.of_nat n.
Proof.
  induction n as [|n IH]; intros st Hlo Hhi.
  - cbn. lia.
  - rewrite Nat.iter_succ. unfold refine at 1. cbn [iterations].
    rewrite IH by lia. unfold Int.add.
    rewrite wrap_small by (unfold Int.in_range; lia). lia.
Qed.

Lemma nth_state_unfold (k : nat) :
  nth_state radicand k = Nat.iter k (refine radicand) (initial_state radicand).
Proof. reflexivity. Qed.

Lemma previous_iter (n : nat) st :
  previousGuess (Nat.iter (S n) (refine radicand) st) =
  guess (Nat.iter n (refine radicand) st).
Proof. reflexivity. Qed.
End DoWhile.

(** ** Reading 1: exact real arithmetic *)

Lemma Zceil_spec (x : R) : (IZR (Zceil x) - 1 < x <= IZR (Zceil x))%R.
Proof.
  unfold Zceil. rewrite minus_IZR. destruct (archimed (- x)). lra.
Qed.

Lemma ln_10_pos : (0 < ln 10)%R.
Proof. rewrite <- ln_1. apply ln_increasing; lra. Qed.

Lemma Rpower_10_log10 (x : R) : (0 < x)%R -> Rpower 10 (ln x / ln 10) = x.
Proof.
  intros Hx. unfold Rpower.
  replace (ln x / ln 10 * ln 10)%R with (ln x)
    by (field; apply Rgt_not_eq, ln_10_pos).
  now apply exp_ln.
Qed.

(** The initial guess in exact arithmetic: [10^(k/2)] for the least integer
    [k] with [radicand <= 10^k]. *)
Lemma exact_initial_guess (r : R) :
  (0 < r)%R ->
  let k := Zceil (ln r / ln 10) in
  let g := getInitialGuess (F := Exact) r in
  g = Rpower 10 (IZR k / 2) /\
  (0 < g)%R /\
  (g * g)%R = Rpower 10 (IZR k) /\
  (Rpower 10 (IZR k - 1) < r <= Rpower 10 (IZR k))%R /\
  (r <= g * g < 10 * r)%R.
Proof.
  intros Hr k g.
  assert (Eg : g = Rpower 10 (IZR k / 2)) by reflexivity.
  assert (Hsq : (g * g)%R = Rpower 10 (IZR k)).
  { rewrite Eg, <- Rpower_plus. f_equal. lra. }
  destruct (Zceil_spec (ln r / ln 10)) as [Hlo Hhi]. fold k in Hlo, Hhi.
  assert (Hbr : (Rpower 10 (IZR k - 1) < r <= Rpower 10 (IZR k))%R).
  { split.
    - rewrite <- (Rpower_10_log10 r Hr) at 1. apply Rpower_lt; lra.
    - rewrite <- (Rpower_10_log10 r Hr) at 1. apply Rle_Rpower; lra. }
  assert (Hten : Rpower 10 (IZR k) = (10 * Rpower 10 (IZR k - 1))%R).
  { replace (IZR k) with (1 + (IZR k - 1))%R at 1 by lra.
    rewrite Rpower_plus, Rpower_1 by lra. reflexivity. }
  repeat split; try tauto.
  - rewrite Eg. apply exp_pos.
  - rewrite Hsq. tauto.
  - rewrite Hsq, Hten. lra.
Qed.

(** ** Reading 2: IEEE 754 *)

Lemma SFdiv_nan_r p e x : SFdiv p e x S754_nan = S754_nan.
Proof. destruct x; reflexivity. Qed.

Lemma SFmul_nan_r p e x : SFmul p e x S754_nan = S754_nan.
Proof. destruct x; reflexivity. Qed.

Lemma SFsub_nan_r p e x : SFsub p e x S754_nan = S754_nan.
Proof. destruct x; reflexivity. Qed.

Lemma SFltb_nan_r x : SFltb x S754_nan = false.
Proof. destruct x; reflexivity. Qed.

Lemma ieee_refine (ld : format) (lm : libm) (radicand : spec_float)
      (st : solver_state spec_float) :
  refine (F := IEEE ld lm) radicand st =
  {| previousGuess := guess st;
     guess := SFmul (prec ld) (emax ld)
                (round_to ld (SFdiv 53 1024 (float_of_Z binary64 1) (float_of_Z binary64 2)))
                (SFadd (prec ld) (emax ld) (guess st)
                   (SFdiv (prec ld) (emax ld) (round_to ld radicand) (guess st)));
     iterations := Int.add (iterations st) 1 |}.
Proof. reflexivity. Qed.

Lemma ieee_keep_going (ld : format) (lm : libm) (st : solver_state spec_float) :
  keep_going (F := IEEE ld lm) st =
  SFltb (limit (F := IEEE ld lm))
    (SFabs (round_to binary64 (SFsub (prec ld) (emax ld) (previousGuess st) (guess st)))).
Proof. reflexivity. Qed.

(** A NaN quotient ends the loop after that round, whatever the radicand. *)
Lemma nan_step_ends (ld : format) (lm : libm) (radicand : spec_float)
      (st : solver_state spec_float) :
  SFdiv (prec ld) (emax ld) (round_to ld radicand) (guess st) = S754_nan ->
  forall fuel,
    do_while (F := IEEE ld lm) (S fuel) radicand st =
    Some {| guess := S754_nan; previousGuess := guess st;
            iterations := Int.add (iterations st) 1 |}.
Proof.
  intros Hdiv fuel. cbn [do_while]. cbv zeta.
  rewrite ieee_refine, Hdiv.
  replace (SFadd (prec ld) (emax ld) (guess st) S754_nan) with S754_nan
    by (destruct (guess st); reflexivity).
  rewrite SFmul_nan_r, ieee_keep_going. cbn [guess previousGuess].
  rewrite SFsub_nan_r. cbn [round_to SFldexp SFabs]. now rewrite SFltb_nan_r.
Qed.

(** C3 as stated fails at radicand 0: the call returns, and what it returns
    is NaN. *)
Lemma solver_silent_nan_at_zero :
  non_positive (S754_zero false) = true /\
  silent_nan (computeSquareRoot (F := IEEE x87_extended ref_libm) 1 (S754_zero false)).
Proof.
  split; [reflexivity|].
  eexists. split; [vm_compute; reflexivity|]. split; reflexivity.
Qed.

Lemma ref_libm_annex_F : annex_F ref_libm.
Proof.
  unfold annex_F. split; [|split; [|split; [|split]]].
  - reflexivity.
  - reflexivity.
  - reflexivity.
  - vm_compute. reflexivity.
  - vm_compute. reflexivity.
Qed.

(** C3, amended.  The solver has no error path.  With a libm that follows
    Annex F, every non-positive radicand (a zero, a negative number, minus
    infinity) makes the call run exactly one round and return NaN, printed
    with an iteration count of 2. *)
Theorem non_positive_radicand_yields_nan (ld : format) (lm : libm)
        (radicand : spec_float) (fuel : nat) :
  annex_F lm ->
  non_positive radicand = true ->
  (1 <= fuel)%nat ->
  computeSquareRoot (F := IEEE ld lm) fuel radicand =
  Some {| shown := S754_nan; reached := 2; returned := S754_nan |}.
Proof.
  intros (Hzero & Hneg & Hninf & Hpow_inf & Hpow_nan) Hnp Hfuel.
  destruct fuel as [|fuel]; [lia|].
  assert (Hguess :
    (exists s, radicand = S754_zero s /\
               getInitialGuess (F := IEEE ld lm) radicand = S754_zero false) \/
    getInitialGuess (F := IEEE ld lm) radicand = S754_nan).
  { unfold getInitialGuess. cbn [pow ceil log10 ddiv double_of_int IEEE].
    destruct radicand as [s|[|]| |[|] m e]; try discriminate Hnp.
    - left. exists s. split; [reflexivity|]. rewrite Hzero. exact Hpow_inf.
    - right. rewrite Hninf. exact Hpow_nan.
    - right. rewrite Hneg. exact Hpow_nan. }
  unfold computeSquareRoot, initial_state.
  destruct Hguess as [(s & -> & ->)| ->].
  - rewrite nan_step_ends; [reflexivity|]. reflexivity.
  - rewrite nan_step_ends; [reflexivity|]. apply SFdiv_nan_r.
Qed.

Lemma non_positive_radicand_yields_nan_witness :
  computeSquareRoot (F := IEEE x87_extended ref_libm) 1 (float_of_Z binary64 (-4)) =
  Some {| shown := S754_nan; reached := 2; returned := S754_nan |}.
Proof.
  apply (non_positive_radicand_yields_nan x87_extended ref_libm
           (float_of_Z binary64 (-4)) 1).
  - exact ref_libm_annex_F.
  - reflexivity.
  - apply Nat.le_refl.
Defined.

(** The loop of the IEEE reading depends on libm only through the initial
    guess and the limit. *)
Lemma ieee_do_while_libm (ld : format) (lm1 lm2 : libm) (radicand : spec_float) :
  limit (F := IEEE ld lm1) = limit (F := IEEE ld lm2) ->
  forall fuel st,
    do_while (F := IEEE ld lm1) fuel radicand st =
    do_while (F := IEEE ld lm2) fuel radicand st.
Proof.
  intros Hl fuel. induction fuel as [|fuel IH]; intros st; [reflexivity|].
  cbn [do_while]. cbv zeta.
  rewrite !ieee_refine, !ieee_keep_going, Hl, IH. reflexivity.
Qed.

Lemma ieee_initial_guess (ld : format) (lm : libm) (radicand : spec_float) :
  getInitialGuess (F := IEEE ld lm) radicand =
  lm_pow lm (float_of_Z binary64 BASE_E)
    (SFdiv 53 1024 (SFceil (lm_log10 lm radicand)) (float_of_Z binary64 2)).
Proof. reflexivity. Qed.

Lemma ieee_limit (ld : format) (lm : libm) :
  limit (F := IEEE ld lm) =
  lm_pow lm (float_of_Z binary64 BASE_E) (float_of_Z binary64 (-15)).
Proof. reflexivity. Qed.

Lemma ieee_solver_libm (ld : format) (lm1 lm2 : libm) (radicand : spec_float) :
  getInitialGuess (F := IEEE ld lm1) radicand = getInitialGuess (F := IEEE ld lm2) radicand ->
  limit (F := IEEE ld lm1) = limit (F := IEEE ld lm2) ->
  forall fuel,
    computeSquareRoot (F := IEEE ld lm1) fuel radicand =
    computeSquareRoot (F := IEEE ld lm2) fuel radicand.
Proof.
  intros Hg Hl fuel. unfold computeSquareRoot, initial_state.
  rewrite Hg, (ieee_do_while_libm ld lm1 lm2 radicand Hl). reflexivity.
Qed.

Lemma ieee_solver_fixed (ld : format) (lm : libm) (radicand g0 lim : spec_float) :
  getInitialGuess (F := IEEE ld lm) radicand = g0 ->
  limit (F := IEEE ld lm) = lim ->
  forall fuel,
    computeSquareRoot (F := IEEE ld lm) fuel radicand =
    computeSquareRoot (F := IEEE ld (fixed_libm g0 lim)) fuel radicand.
Proof.
  intros Hg Hl. apply ieee_solver_libm.
  - rewrite Hg. reflexivity.
  - rewrite Hl. reflexivity.
Qed.

(** The integer test [close_to_sqrt] is about real numbers. *)
Lemma close_to_sqrt_sound (n : Z) (x : spec_float) :
  0 <= n -> close_to_sqrt n x = true ->
  (Rabs (SF2R x - sqrt (IZR n)) <= / 10 ^ 15)%R.
Proof.
  intros Hn. destruct x as [| | |[|] m [|e|k]]; try discriminate.
  unfold close_to_sqrt. cbv zeta.
  rewrite !andb_true_iff, !Z.leb_le, !Z.pow_2_r. intros [[H1 H2] H3].
  apply IZR_le in H1, H2, H3.
  rewrite <- (positive_nat_Z k) in H1, H2, H3.
  change 15 with (Z.of_nat 15) in H1, H2, H3.
  push_IZR H1. push_IZR H2. push_IZR H3.
  cbn [SF2R powerRZ].
  set (a := IZR (Zpos m)) in *.
  set (p := (2 ^ Pos.to_nat k)%R) in *.
  set (t := (10 ^ 15)%R) in *.
  assert (Hp : (0 < p)%R) by (apply pow_lt; lra).
  assert (Ht : (0 < t)%R) by (apply pow_lt; lra).
  assert (Hpt : (0 < p * t)%R) by (apply Rmult_lt_0_compat; assumption).
  assert (Hn' : (0 <= IZR n)%R) by (apply IZR_le; exact Hn).
  set (lower := ((a * t - p) / (p * t))%R).
  set (upper := ((a * t + p) / (p * t))%R).
  assert (Hlower : (0 <= lower)%R).
  { unfold lower. apply Rmult_le_pos; [lra|]. apply Rlt_le, Rinv_0_lt_compat, Hpt. }
  assert (Hupper : (0 <= upper)%R).
  { unfold upper. apply Rmult_le_pos; [lra|]. apply Rlt_le, Rinv_0_lt_compat, Hpt. }
  assert (Hl2 : (lower * lower <= IZR n)%R).
  { apply (Rmult_le_reg_r ((p * t) * (p * t))); [nra|].
    replace (lower * lower * (p * t * (p * t)))%R
      with ((a * t - p) * (a * t - p))%R by (unfold lower; field; lra).
    exact H2. }
  assert (Hu2 : (IZR n <= upper * upper)%R).
  { apply (Rmult_le_reg_r ((p * t) * (p * t))); [nra|].
    replace (upper * upper * (p * t * (p * t)))%R
      with ((a * t + p) * (a * t + p))%R by (unfold upper; field; lra).
    exact H3. }
  assert (Hls : (lower <= sqrt (IZR n))%R).
  { rewrite <- (sqrt_square lower Hlower). apply sqrt_le_1_alt. exact Hl2. }
  assert (Hus : (sqrt (IZR n) <= upper)%R).
  { rewrite <- (sqrt_square upper Hupper). apply sqrt_le_1_alt. exact Hu2. }
  replace (1 * a * / p)%R with (lower + / t)%R by (unfold lower; field; lra).
  assert (Eu : upper = (lower + 2 * / t)%R) by (unfold upper, lower; field; lra).
  assert (0 < / t)%R by (apply Rinv_0_lt_compat, Ht).
  apply Rabs_le. lra.
Qed.

(** C8.  [computeSquareRoot(6)] in the IEEE reading, for each of the three
    [long double] formats and every libm that follows Annex F closely enough:
    [log10(6)] rounds up to 1, [pow(10, 0.5)] and [pow(10, -15)] are within
    two units in the last place of the correctly rounded values.  The call
    returns after exactly six rounds with an iteration count of 7, below 10,
    and both the value printed and the value returned are within [10^-15] of
    the square root of 6. *)
Theorem babylonian_sqrt_six (lm : libm) (ld : format) :
  SFceil (lm_log10 lm (float_of_Z binary64 6)) = SFone ->
  In (lm_pow lm (float_of_Z binary64 BASE_E)
        (SFdiv 53 1024 SFone (float_of_Z binary64 2)))
     (within_2ulp (SFsqrt 53 1024 (float_of_Z binary64 10))) ->
  In (lm_pow lm (float_of_Z binary64 BASE_E) (float_of_Z binary64 (-15)))
     (within_2ulp (SFdiv 53 1024 SFone (float_of_Z binary64 (10 ^ 15)))) ->
  In ld long_double_formats ->
  exists rep : solver_report spec_float spec_float,
    (forall fuel, (6 <= fuel)%nat ->
       computeSquareRoot (F := IEEE ld lm) fuel (float_of_Z binary64 6) = Some rep) /\
    (forall fuel, (fuel < 6)%nat ->
       computeSquareRoot (F := IEEE ld lm) fuel (float_of_Z binary64 6) = None) /\
    reached rep = 7 /\ reached rep < 10 /\
    (Rabs (SF2R (shown rep) - sqrt 6) <= / 10 ^ 15)%R /\
    (Rabs (SF2R (returned rep) - sqrt 6) <= / 10 ^ 15)%R.
Proof.
  intros Hlog Hguess Hlimit Hld.
  set (g0 := lm_pow lm (float_of_Z binary64 BASE_E)
               (SFdiv 53 1024 SFone (float_of_Z binary64 2))) in *.
  set (lim := lm_pow lm (float_of_Z binary64 BASE_E) (float_of_Z binary64 (-15))) in *.
  pose (table := fixed_libm g0 lim).
  assert (Hsame : forall fuel,
            computeSquareRoot (F := IEEE ld lm) fuel (float_of_Z binary64 6) =
            computeSquareRoot (F := IEEE ld table) fuel (float_of_Z binary64 6)).
  { apply ieee_solver_fixed; [|reflexivity].
    rewrite ieee_initial_guess, Hlog. reflexivity. }
  assert (Hrun : exists rep : solver_report spec_float spec_float,
            computeSquareRoot (F := IEEE ld table) 6 (float_of_Z binary64 6) = Some rep /\
            computeSquareRoot (F := IEEE ld table) 5 (float_of_Z binary64 6) = None /\
            reached rep = 7 /\
            close_to_sqrt 6 (shown rep) = true /\ close_to_sqrt 6 (returned rep) = true).
  { clearbody g0 lim. clear Hsame Hlog.
    unfold long_double_formats in Hld. cbn [In] in Hld.
    vm_compute in Hguess, Hlimit.
    repeat match goal with
           | H : _ \/ _ |- _ => destruct H as [H|H]
           | H : False |- _ => destruct H
           end;
      subst ld g0 lim; subst table;
      (eexists; split; [vm_compute; reflexivity|];
       split; [vm_compute; reflexivity|];
       split; [reflexivity|]; split; vm_compute; reflexivity). }
  destruct Hrun as (rep & H6 & H5 & Hcount & Hshown & Hret).
  exists rep. split; [|split; [|split; [|split; [|split]]]].
  - intros fuel Hf. rewrite Hsame. revert H6. unfold computeSquareRoot.
    destruct (do_while (F := IEEE ld table) 6 _ _) as [st|] eqn:E; [|discriminate].
    rewrite (do_while_fuel_mono (F := IEEE ld table) _ 6 fuel _ st Hf E). auto.
  - intros fuel Hf. rewrite Hsame. revert H5. unfold computeSquareRoot.
    destruct (do_while (F := IEEE ld table) fuel _ _) as [st|] eqn:E; [|reflexivity].
    rewrite (do_while_fuel_mono (F := IEEE ld table) _ fuel 5 _ st ltac:(lia) E).
    discriminate.
  - exact Hcount.
  - rewrite Hcount. reflexivity.
  - apply (close_to_sqrt_sound 6); [lia|exact Hshown].
  - apply (close_to_sqrt_sound 6); [lia|exact Hret].
Qed.

Lemma babylonian_sqrt_six_witness :
  exists rep : solver_report spec_float spec_float,
    (forall fuel, (6 <= fuel)%nat ->
       computeSquareRoot (F := IEEE x87_extended ref_libm) fuel (float_of_Z binary64 6)
       = Some rep) /\
    (forall fuel, (fuel < 6)%nat ->
       computeSquareRoot (F := IEEE x87_extended ref_libm) fuel (float_of_Z binary64 6)
       = None) /\
    reached rep = 7 /\ reached rep < 10 /\
    (Rabs (SF2R (shown rep) - sqrt 6) <= / 10 ^ 15)%R /\
    (Rabs (SF2R (returned rep) - sqrt 6) <= / 10 ^ 15)%R.
Proof.
  apply (babylonian_sqrt_six ref_libm x87_extended).
  - vm_compute. reflexivity.
  - vm_compute. right. right. left. reflexivity.
  - vm_compute. right. right. left. reflexivity.
  - left. reflexivity.
Defined.

(** ** The scanner and the solver *)

Lemma returns_positive_finite (o : option (solver_report spec_float spec_float)) :
  match o with
  | Some rep => positive_finite (shown rep) && positive_finite (returned rep)
  | None => false
  end = true ->
  exists rep, o = Some rep /\
              positive_finite (shown rep) = true /\
              positive_finite (returned rep) = true.
Proof.
  destruct o as [rep|]; [|discriminate].
  intros H. apply andb_true_iff in H. exists rep. auto.
Qed.

Lemma solver_radicands_app (log1 log2 : list call) :
  solver_radicands (log1 ++ log2) = solver_radicands log1 ++ solver_radicands log2.
Proof. apply flat_map_app. Qed.

(** The scan of [main] calls the solver on the accepted candidates, in
    order. *)
Lemma main_fold (l : list Z) : forall log,
  solver_radicands (fold_left (fun log c => main_body c log) l log) =
  solver_radicands log ++ filter (fun n => isPerfectNumber n =? TRUE) l.
Proof.
  induction l as [|c l IH]; intros log; cbn [fold_left filter].
  - now rewrite app_nil_r.
  - rewrite IH. unfold main_body.
    destruct (isPerfectNumber_boolean c) as [E|E]; rewrite E; cbn [Z.eqb negb TRUE FALSE].
    + rewrite solver_radicands_app, <- app_assoc. reflexivity.
    + reflexivity.
Qed.

Lemma main_solver_radicands : solver_radicands main_calls = [6; 28; 496; 8128].
Proof.
  unfold main_calls. rewrite for_loop_fold by (first [discriminate | reflexivity]).
  rewrite main_fold. fold candidates. rewrite perfect_scan. reflexivity.
Qed.

(** The initial guesses of the reference libm at the four radicands, and
    its limit. *)
Lemma ref_libm_values :
  forall ld,
    getInitialGuess (F := IEEE ld ref_libm) (float_of_Z binary64 6)
    = S754_finite false 7120816245988179 (-51) /\
    getInitialGuess (F := IEEE ld ref_libm) (float_of_Z binary64 28)
    = S754_finite false 5629499534213120 (-49) /\
    getInitialGuess (F := IEEE ld ref_libm) (float_of_Z binary64 496)
    = S754_finite false 8901020307485223 (-48) /\
    getInitialGuess (F := IEEE ld ref_libm) (float_of_Z binary64 8128)
    = S754_finite false 7036874417766400 (-46) /\
    limit (F := IEEE ld ref_libm) = S754_finite false 5070602400912918 (-102).
Proof.
  intros ld. rewrite !ieee_initial_guess, ieee_limit.
  vm_compute. repeat split.
Qed.

(** C9.  With the default range the scanner calls [computeSquareRoot] on 6,
    28, 496 and 8128 only: each is perfect by the brute-force definition, at
    least 6 and so a positive radicand, for which the initial guess is
    strictly positive in exact arithmetic and a positive finite number in the
    IEEE reading, where the call returns a positive finite value and no
    NaN. *)
Theorem scanner_radicands_are_perfect :
  solver_radicands main_calls = [6; 28; 496; 8128] /\
  forall r, In r (solver_radicands main_calls) ->
    is_perfect_ref r = true /\
    6 <= r /\
    (0 < IZR r)%R /\
    (0 < getInitialGuess (F := Exact) (IZR r))%R /\
    non_positive (float_of_Z binary64 r) = false /\
    forall ld, In ld long_double_formats ->
      positive_finite
        (getInitialGuess (F := IEEE ld ref_libm) (float_of_Z binary64 r)) = true /\
      exists rep : solver_report spec_float spec_float,
        computeSquareRoot (F := IEEE ld ref_libm) 6 (float_of_Z binary64 r) = Some rep /\
        positive_finite (shown rep) = true /\
        positive_finite (returned rep) = true.
Proof.
  split; [exact main_solver_radicands|].
  intros r Hr. rewrite main_solver_radicands in Hr.
  assert (Hpos : 6 <= r) by (cbn [In] in Hr; lia).
  assert (HposR : (0 < IZR r)%R) by (apply IZR_lt; lia).
  split; [|split; [exact Hpos|split; [exact HposR|split; [|split]]]].
  - cbn [In] in Hr. destruct Hr as [<-|[<-|[<-|[<-|[]]]]]; vm_compute; reflexivity.
  - apply (exact_initial_guess (IZR r) HposR).
  - cbn [In] in Hr. destruct Hr as [<-|[<-|[<-|[<-|[]]]]]; reflexivity.
  - intros ld Hld. unfold long_double_formats in Hld. cbn [In] in Hld, Hr.
    destruct (ref_libm_values ld) as (G6 & G28 & G496 & G8128 & L).
    destruct Hr as [<-|[<-|[<-|[<-|[]]]]];
      [ rewrite (ieee_solver_fixed ld ref_libm _ _ _ G6 L), G6
      | rewrite (ieee_solver_fixed ld ref_libm _ _ _ G28 L), G28
      | rewrite (ieee_solver_fixed ld ref_libm _ _ _ G496 L), G496
      | rewrite (ieee_solver_fixed ld ref_libm _ _ _ G8128 L), G8128 ];
      (split; [reflexivity|]);
      destruct Hld as [<-|[<-|[<-|[]]]];
      apply returns_positive_finite; vm_compute; reflexivity.
Qed.

Lemma scanner_radicands_are_perfect_witness :
  is_perfect_ref 8128 = true /\
  6 <= 8128 /\
  (0 < IZR 8128)%R /\
  (0 < getInitialGuess (F := Exact) (IZR 8128))%R /\
  non_positive (float_of_Z binary64 8128) = false /\
  forall ld, In ld long_double_formats ->
    positive_finite
      (getInitialGuess (F := IEEE ld ref_libm) (float_of_Z binary64 8128)) = true /\
    exists rep : solver_report spec_float spec_float,
      computeSquareRoot (F := IEEE ld ref_libm) 6 (float_of_Z binary64 8128) = Some rep /\
      positive_finite (shown rep) = true /\
      positive_finite (returned rep) = true.
Proof.
  apply (proj2 scanner_radicands_are_perfect 8128).
  rewrite main_solver_radicands. right. right. right. left. reflexivity.
Defined.

(** * The loop and the initial guess in the IEEE reading *)

(** ** Comparisons *)

Lemma SFcompare_antisym (x y : spec_float) :
  SFcompare y x = option_map CompOpp (SFcompare x y).
Proof.
  destruct x as [sx|sx| |sx mx ex], y as [sy|sy| |sy my ey]; cbn;
    try reflexivity;
    try (destruct sx; reflexivity); try (destruct sy; reflexivity).
  - destruct sx, sy; reflexivity.
  - destruct sx, sy; try reflexivity.
    + rewrite (Z.compare_antisym ey ex).
      destruct (ey ?= ex); cbn; try reflexivity.
      rewrite (Pos.compare_cont_antisym mx my Eq). reflexivity.
    + rewrite (Z.compare_antisym ey ex).
      destruct (ey ?= ex); cbn; try reflexivity.
      rewrite (Pos.compare_cont_antisym mx my Eq). cbn.
      reflexivity.
Qed.

(** Away from NaN, [x > y] fails exactly when [x <= y]. *)
Lemma SFltb_false_SFleb (x y : spec_float) :
  is_nan x = false -> is_nan y = false ->
  (SFltb y x = false <-> SFleb x y = true).
Proof.
  intros Hx Hy. unfold SFltb, SFleb. rewrite (SFcompare_antisym x y).
  destruct (SFcompare x y) as [[| |]|] eqn:E; cbn; try (split; congruence).
  destruct x, y; try discriminate; cbn in E; discriminate.
Qed.

(** ** The refinement loop *)

Lemma ieee_nth_guess (ld : format) (lm : libm) (radicand : spec_float) (k : nat) :
  guess (nth_state (F := IEEE ld lm) radicand (S k)) =
  SFmul (prec ld) (emax ld)
    (round_to ld (SFdiv 53 1024 (float_of_Z binary64 1) (float_of_Z binary64 2)))
    (SFadd (prec ld) (emax ld) (guess (nth_state (F := IEEE ld lm) radicand k))
       (SFdiv (prec ld) (emax ld) (round_to ld radicand)
          (guess (nth_state (F := IEEE ld lm) radicand k)))).
Proof. reflexivity. Qed.

Lemma ieee_nth_test (ld : format) (lm : libm) (radicand : spec_float) (k : nat) :
  (1 <= k)%nat ->
  keep_going (F := IEEE ld lm)
    (Nat.iter k (refine (F := IEEE ld lm) radicand) (initial_state (F := IEEE ld lm) radicand)) =
  SFltb (lm_pow lm (float_of_Z binary64 BASE_E) (float_of_Z binary64 (-15)))
    (SFabs (round_to binary64
       (SFsub (prec ld) (emax ld)
          (guess (nth_state (F := IEEE ld lm) radicand (Nat.pred k)))
          (guess (nth_state (F := IEEE ld lm) radicand k))))).
Proof. destruct k as [|k]; [lia|]. intros _. reflexivity. Qed.

(** C4, amended.  In the IEEE reading, for every radicand, every
    [long double] format and every libm: the first guess is the initial guess
    converted to [long double]; each round replaces the guess [g] by
    [1/2 * (g + radicand / g)], rounded operation by operation; with fewer than
    [INT_MAX] rounds of fuel the call returns exactly when some round [n >= 1]
    within the fuel is the first on which
    [fabs((double)(previousGuess - guess)) > limit] is false, [limit] being the
    [double] that [pow(10, -15)] returns; the report then shows the guess of
    round [n] and the count [1 + n], so a returned count is at least 2.  When
    neither [limit] nor the difference is a NaN, the failing test is
    [|difference| <= limit], the difference taken after its conversion to
    [double]. *)
Theorem refinement_loop_contract (ld : format) (lm : libm) (radicand : spec_float)
        (fuel : nat) (rep : solver_report spec_float spec_float) :
  Z.of_nat fuel < Int.max_signed ->
  let g := fun k => guess (nth_state (F := IEEE ld lm) radicand k) in
  let lim := lm_pow lm (float_of_Z binary64 BASE_E) (float_of_Z binary64 (-15)) in
  let difference := fun k =>
    SFabs (round_to binary64 (SFsub (prec ld) (emax ld) (g (Nat.pred k)) (g k))) in
  g 0%nat = round_to ld (getInitialGuess (F := IEEE ld lm) radicand) /\
  (forall k, g (S k) =
     SFmul (prec ld) (emax ld)
       (round_to ld (SFdiv 53 1024 (float_of_Z binary64 1) (float_of_Z binary64 2)))
       (SFadd (prec ld) (emax ld) (g k)
          (SFdiv (prec ld) (emax ld) (round_to ld radicand) (g k)))) /\
  (computeSquareRoot (F := IEEE ld lm) fuel radicand = Some rep <->
   exists n, (1 <= n <= fuel)%nat /\
             SFltb lim (difference n) = false /\
             (forall k, (1 <= k < n)%nat -> SFltb lim (difference k) = true) /\
             shown rep = g n /\
             reached rep = 1 + Z.of_nat n /\
             returned rep = round_to binary64 (g n)) /\
  (computeSquareRoot (F := IEEE ld lm) fuel radicand = Some rep -> 2 <= reached rep) /\
  (forall k, is_nan lim = false -> is_nan (difference k) = false ->
     (SFltb lim (difference k) = false <-> SFleb (difference k) lim = true)).
Proof.
  intros Hfuel g lim difference.
  assert (Hcount : forall n, (n <= fuel)%nat ->
            iterations (nth_state (F := IEEE ld lm) radicand n) = 1 + Z.of_nat n).
  { intros n Hn. rewrite nth_state_unfold, iterations_iter;
      [reflexivity|discriminate|cbn [iterations initial_state]; lia]. }
  assert (Htest : forall k, (1 <= k)%nat ->
            keep_going (F := IEEE ld lm)
              (Nat.iter k (refine (F := IEEE ld lm) radicand)
                 (initial_state (F := IEEE ld lm) radicand))
            = SFltb lim (difference k)).
  { intros k Hk. apply ieee_nth_test. exact Hk. }
  assert (Hiff : computeSquareRoot (F := IEEE ld lm) fuel radicand = Some rep <->
   exists n, (1 <= n <= fuel)%nat /\
             SFltb lim (difference n) = false /\
             (forall k, (1 <= k < n)%nat -> SFltb lim (difference k) = true) /\
             shown rep = g n /\
             reached rep = 1 + Z.of_nat n /\
             returned rep = round_to binary64 (g n)).
  { unfold computeSquareRoot. split.
    - destruct (do_while (F := IEEE ld lm) fuel radicand
                  (initial_state (F := IEEE ld lm) radicand)) as [st|] eqn:E;
        [|discriminate].
      intros [= <-]. apply do_while_stops in E.
      destruct E as (n & Hn & (H1 & Hstop & Hgo) & ->). exists n.
      rewrite <- nth_state_unfold. cbn [shown reached returned].
      split; [lia|]. split; [rewrite <- Htest by exact H1; exact Hstop|].
      split; [intros k Hk; rewrite <- Htest by lia; apply Hgo; exact Hk|].
      split; [reflexivity|]. split; [exact (Hcount n Hn)|reflexivity].
    - intros (n & Hn & Hstop & Hgo & Hs & Hr & Hret).
      assert (E : do_while (F := IEEE ld lm) fuel radicand
                    (initial_state (F := IEEE ld lm) radicand)
                  = Some (nth_state (F := IEEE ld lm) radicand n)).
      { apply do_while_stops. exists n. split; [lia|]. split; [|apply nth_state_unfold].
        split; [lia|]. split; [rewrite Htest by lia; exact Hstop|].
        intros k Hk. rewrite Htest by lia. apply Hgo. exact Hk. }
      rewrite E. destruct rep as [s r d]. cbn [shown reached returned] in Hs, Hr, Hret.
      subst s r d. f_equal. f_equal. exact (Hcount n ltac:(lia)). }
  split; [reflexivity|]. split; [intros k; apply ieee_nth_guess|].
  split; [exact Hiff|]. split.
  - intros H. apply Hiff in H. destruct H as (n & Hn & _ & _ & _ & Hr & _). lia.
  - intros k Hlim Hd. apply SFltb_false_SFleb; assumption.
Qed.

Lemma refinement_loop_contract_witness :
  let g := fun k => guess (nth_state (F := IEEE x87_extended ref_libm)
                             (float_of_Z binary64 6) k) in
  let lim := lm_pow ref_libm (float_of_Z binary64 BASE_E) (float_of_Z binary64 (-15)) in
  let difference := fun k =>
    SFabs (round_to binary64 (SFsub 64 16384 (g (Nat.pred k)) (g k))) in
  let rep := {| shown := S754_finite false 11296277599074481128 (-62);
                reached := 7;
                returned := S754_finite false 5515760546423086 (-51) |} in
  g 0%nat = round_to x87_extended
              (getInitialGuess (F := IEEE x87_extended ref_libm) (float_of_Z binary64 6)) /\
  (forall k, g (S k) =
     SFmul 64 16384
       (round_to x87_extended
          (SFdiv 53 1024 (float_of_Z binary64 1) (float_of_Z binary64 2)))
       (SFadd 64 16384 (g k)
          (SFdiv 64 16384 (round_to x87_extended (float_of_Z binary64 6)) (g k)))) /\
  (computeSquareRoot (F := IEEE x87_extended ref_libm) 6 (float_of_Z binary64 6) = Some rep <->
   exists n, (1 <= n <= 6)%nat /\
             SFltb lim (difference n) = false /\
             (forall k, (1 <= k < n)%nat -> SFltb lim (difference k) = true) /\
             shown rep = g n /\
             reached rep = 1 + Z.of_nat n /\
             returned rep = round_to binary64 (g n)) /\
  (computeSquareRoot (F := IEEE x87_extended ref_libm) 6 (float_of_Z binary64 6) = Some rep ->
   2 <= reached rep) /\
  (forall k, is_nan lim = false -> is_nan (difference k) = false ->
     (SFltb lim (difference k) = false <-> SFleb (difference k) lim = true)).
Proof.
  apply (refinement_loop_contract x87_extended ref_libm (float_of_Z binary64 6) 6
           {| shown := S754_finite false 11296277599074481128 (-62);
              reached := 7;
              returned := S754_finite false 5515760546423086 (-51) |}).
  reflexivity.
Defined.

Lemma SF2R_finite_neg (m k : positive) :
  SF2R (S754_finite false m (Zneg k)) = (IZR (Zpos m) / 2 ^ Pos.to_nat k)%R.
Proof.
  cbn [SF2R powerRZ]. field. apply pow_nonzero. lra.
Qed.

(** [a / 2^k] against [1 / 10^15], decided in integers. *)
Lemma above_limit_sound (a : Z) (k : nat) :
  2 ^ Z.of_nat k < a * 10 ^ 15 -> (/ 10 ^ 15 < IZR a / 2 ^ k)%R.
Proof.
  intros H. apply IZR_lt in H.
  change 15 with (Z.of_nat 15) in H. push_IZR H.
  assert (Hp : (0 < 2 ^ k)%R) by (apply pow_lt; lra).
  assert (Ht : (0 < 10 ^ 15)%R) by (apply pow_lt; lra).
  set (p := (2 ^ k)%R) in *. set (t := (10 ^ 15)%R) in *.
  apply (Rmult_lt_reg_r (p * t)); [nra|].
  replace (/ t * (p * t))%R with p by (field; lra).
  replace (IZR a / p * (p * t))%R with (IZR a * t)%R by (field; lra).
  exact H.
Qed.

(** C4 as stated fails at the radicand 3.6754446796632406e-30 (x87
    [long double], reference libm): the loop stops after its first round
    although the two guesses differ by more than [10^-15].  The difference is
    above [limit] as a [long double] and equals [limit] once converted to
    [double]. *)
Lemma stops_above_the_limit :
  let st := nth_state (F := IEEE x87_extended ref_libm) tiny_radicand 1 in
  let d := SFsub 64 16384 (previousGuess st) (guess st) in
  positive_finite tiny_radicand = true /\
  computeSquareRoot (F := IEEE x87_extended ref_libm) 1 tiny_radicand =
  Some {| shown := guess st; reached := 2; returned := round_to binary64 (guess st) |} /\
  (/ 10 ^ 15 < SF2R d)%R /\
  SFltb (round_to x87_extended (limit (F := IEEE x87_extended ref_libm))) d = true /\
  SFabs (round_to binary64 d) = limit (F := IEEE x87_extended ref_libm).
Proof.
  intros st d.
  assert (Eg : getInitialGuess (F := IEEE x87_extended ref_libm) tiny_radicand
               = S754_finite false 8017326348001534 (-101)) by (vm_compute; reflexivity).
  assert (El : limit (F := IEEE x87_extended ref_libm)
               = S754_finite false 5070602400912918 (-102))
    by apply (ref_libm_values x87_extended).
  assert (Est : st = {| guess := S754_finite false 11227187502172313132 (-112);
                        previousGuess := S754_finite false 16419484360707141632 (-112);
                        iterations := 2 |}).
  { unfold st, nth_state, initial_state. rewrite Eg. vm_compute. reflexivity. }
  assert (Ed : d = S754_finite false 10384593717069657000 (-113)).
  { unfold d. rewrite Est. vm_compute. reflexivity. }
  split; [reflexivity|]. split.
  - rewrite (ieee_solver_fixed x87_extended ref_libm tiny_radicand _ _ Eg El), Est.
    vm_compute. reflexivity.
  - rewrite Ed, El. split; [|split; vm_compute; reflexivity].
    rewrite SF2R_finite_neg. apply above_limit_sound. vm_compute. reflexivity.
Qed.

(** ** The initial guess *)








(** * Further properties of the integer half *)

(** ** The tester beyond the scan range *)

(** X1.  Whenever the sum of all divisors of [n >= 1] fits an [int],
    [isPerfectNumber] accepts [n] exactly when [n] is even and equal to the
    sum of its proper divisors. *)
Theorem isPerfectNumber_even_perfect (n : Z) :
  1 <= n -> sigma n <= Int.max_signed ->
  (isPerfectNumber n = TRUE <-> Z.even n = true /\ naive_divisor_sum n = n).
Proof.
  intros Hn Hfit.
  destruct (pairedDivisorSum_naive n Hn Hfit) as [Hsum _].
  unfold isPerfectNumber, isPerfectNumber_run, Int.rem.
  rewrite Z.rem_mod_nonneg, Zmod_even by lia.
  destruct (Z.even n); cbn [Z.eqb fst].
  - rewrite Hsum. destruct (Z.eqb_spec (naive_divisor_sum n) n) as [E|E]; cbn [fst].
    + tauto.
    + split; [discriminate|tauto].
  - split; [discriminate|]. intros [H _]. discriminate H.
Qed.

Lemma isPerfectNumber_even_perfect_witness :
  isPerfectNumber 8128 = TRUE <-> Z.even 8128 = true /\ naive_divisor_sum 8128 = 8128.
Proof.
  apply (isPerfectNumber_even_perfect 8128); [lia|].
  apply sigma_fits_in_range. lia.
Defined.

(** X2.  A negative [int] other than [INT_MIN] is rejected without a single
    trial division, odd or even: [number % 2] is then 0 or -1, never 1, the
    loop guard fails at once, and the adjusted sum [-number] differs from
    [number]. *)
Theorem negative_rejected_without_trials (n : Z) :
  Int.min_signed < n < 0 ->
  isPerfectNumber_run n = (FALSE, []) /\ Int.rem n 2 <> 1.
Proof.
  intros Hn.
  assert (Hrem : Int.rem n 2 <> 1).
  { unfold Int.rem. generalize (Z.rem_nonpos n 2 ltac:(lia) ltac:(lia)). lia. }
  split; [|exact Hrem].
  unfold isPerfectNumber_run.
  destruct (Z.eqb_spec (Int.rem n 2) 1) as [E|_]; [contradiction|].
  unfold pairedDivisorSum. rewrite Z.sqrt_neg by lia.
  change (for_loop 1 0 (tester_body n) {| sum := 0; trials := [] |})
    with {| sum := 0; trials := [] |}.
  cbn [sum trials]. unfold Int.sub. rewrite wrap_small
    by (unfold Int.in_range, Int.min_signed, Int.max_signed in *; lia).
  destruct (Z.eqb_spec (0 - n) n); [lia|reflexivity].
Qed.

Lemma negative_rejected_without_trials_witness :
  isPerfectNumber_run (-28) = (FALSE, []) /\ Int.rem (-28) 2 <> 1.
Proof.
  apply (negative_rejected_without_trials (-28)).
  unfold Int.min_signed, Int.half_modulus. lia.
Defined.

(** The trial divisors do not depend on the sums. *)
Lemma tester_fold_trials (n : Z) (l : list Z) : forall st,
  trials (fold_left (fun st c => tester_body n c st) l st) = trials st ++ l.
Proof.
  induction l as [|d l IH]; intros st; cbn [fold_left].
  - now rewrite app_nil_r.
  - rewrite IH. unfold tester_body.
    destruct (Int.rem n d =? 0); [destruct (d =? Int.div n d)|];
      cbn [trials]; now rewrite <- app_assoc.
Qed.

(** X3.  For a non-negative [int] that passes the parity test the tester
    divides by [1, 2, ..., floor (sqrt number)], in this order, and by nothing
    else: never by a count above the square root. *)
Theorem trial_divisors_up_to_sqrt (n : Z) :
  0 <= n <= Int.max_signed -> Int.rem n 2 <> 1 ->
  snd (isPerfectNumber_run n) = Zseq 1 (Z.to_nat (Z.sqrt n)) /\
  Z.of_nat (length (snd (isPerfectNumber_run n))) = Z.sqrt n /\
  forall d, In d (snd (isPerfectNumber_run n)) <-> 1 <= d /\ d * d <= n.
Proof.
  intros Hn Hrem.
  assert (Hs : 0 <= Z.sqrt n) by apply Z.sqrt_nonneg.
  assert (Hs' : Z.sqrt n < Int.max_signed).
  { destruct (Z.eq_dec n 0) as [->|H0]; [reflexivity|].
    destruct (Z.eq_dec n 1) as [->|H1]; [reflexivity|].
    generalize (Z.sqrt_lt_lin n ltac:(lia)). lia. }
  assert (E : snd (isPerfectNumber_run n) = Zseq 1 (Z.to_nat (Z.sqrt n))).
  { unfold isPerfectNumber_run.
    destruct (Z.eqb_spec (Int.rem n 2) 1) as [E|_]; [contradiction|].
    assert (Et : trials (pairedDivisorSum n) = Zseq 1 (Z.to_nat (Z.sqrt n))).
    { unfold pairedDivisorSum. cbn [trials].
      rewrite for_loop_fold by (auto; discriminate).
      rewrite tester_fold_trials. cbn [trials app].
      f_equal. lia. }
    destruct (sum (pairedDivisorSum n) =? n); cbn [snd]; exact Et. }
  rewrite E. split; [reflexivity|]. split.
  - assert (Hlen : forall len first, length (Zseq first len) = len)
      by (induction len as [|len IH]; intros first; cbn; [|rewrite IH]; reflexivity).
    rewrite Hlen. lia.
  - intros d. rewrite In_Zseq.
    generalize (Z.sqrt_spec n ltac:(lia)). unfold Z.succ. intros Hsq.
    split; intros H; [nia|]. split; [lia|].
    assert (d < Z.sqrt n + 1) by nia. lia.
Qed.

Lemma trial_divisors_up_to_sqrt_witness :
  snd (isPerfectNumber_run 28) = Zseq 1 (Z.to_nat (Z.sqrt 28)) /\
  Z.of_nat (length (snd (isPerfectNumber_run 28))) = Z.sqrt 28 /\
  forall d, In d (snd (isPerfectNumber_run 28)) <-> 1 <= d /\ d * d <= 28.
Proof.
  apply (trial_divisors_up_to_sqrt 28).
  - unfold Int.max_signed, Int.half_modulus. lia.
  - discriminate.
Defined.

(** ** The factor display *)

(** X4.  For an [int] below 4, zero and the negative numbers included, the
    loop of [displayFactors] does not run: the line shows the literal 1 and
    nothing else. *)
Theorem displayFactors_below_four (n : Z) :
  Int.min_signed <= n <= 3 -> displayFactors n = [1].
Proof.
  intros Hn. unfold displayFactors, for_loop, for_fuel, Int.div.
  assert (Hq : Int.min_signed <= Z.quot n 2 <= 1).
  { unfold Int.min_signed, Int.half_modulus in *.
    destruct (Z_le_gt_dec 0 n) as [Hpos|Hneg].
    - rewrite Z.quot_div_nonneg by lia.
      generalize (Z.div_pos n 2 Hpos ltac:(lia)).
      generalize (Z.div_lt_upper_bound n 2 2 ltac:(lia) ltac:(lia)). lia.
    - generalize (Z.quot_opp_l n 2 ltac:(lia)). intros Ho.
      assert (0 <= Z.quot (- n) 2 <= - n)
        by (split; [apply Z.quot_pos|apply Z.quot_le_upper_bound]; lia).
      lia. }
  rewrite wrap_small by (unfold Int.in_range, Int.max_signed, Int.half_modulus; lia).
  replace (Z.to_nat (Z.quot n 2 - 2 + 1)) with 0%nat by lia.
  reflexivity.
Qed.

Lemma displayFactors_below_four_witness : displayFactors (-6) = [1].
Proof.
  apply (displayFactors_below_four (-6)).
  unfold Int.min_signed, Int.half_modulus. lia.
Defined.

Lemma sum_filter_Zsum (p : Z -> bool) (l : list Z) :
  fold_right Z.add 0 (filter p l) = Zsum (fun d => if p d then d else 0) l.
Proof.
  induction l as [|d l IH]; [reflexivity|].
  cbn [filter]. rewrite Zsum_cons. destruct (p d); cbn [fold_right]; lia.
Qed.

(** No divisor of [n] lies strictly between [n/2] and [n]. *)
Lemma no_divisor_above_half (n d : Z) :
  2 <= n -> n / 2 < d < n -> divisor_term n d = 0.
Proof.
  intros Hn Hd. unfold divisor_term.
  assert (Hh : 0 <= n / 2) by (apply Z.div_pos; lia).
  destruct (Z.eqb_spec (n mod d) 0) as [E|E]; [|reflexivity].
  exfalso. apply Z.div_exact in E; [|lia].
  assert (2 <= n / d) by nia.
  assert (d <= n / 2) by (apply Z.div_le_lower_bound; nia).
  lia.
Qed.

(** X5.  For every [int] [n >= 2] the numbers printed by [displayFactors]
    add up to the sum of the proper divisors of [n]; so whenever
    [isPerfectNumber] accepts [n] (and the divisor sum fits an [int]) the line
    [n = 1 + ...] that [main] prints is a true equation. *)
Theorem displayed_factors_sum (n : Z) :
  2 <= n <= Int.max_signed ->
  fold_right Z.add 0 (displayFactors n) = naive_divisor_sum n /\
  (sigma n <= Int.max_signed -> isPerfectNumber n = TRUE ->
   fold_right Z.add 0 (displayFactors n) = n).
Proof.
  intros Hn.
  assert (Hhalf : 1 <= n / 2 < n).
  { split; [apply Z.div_le_lower_bound; lia|apply Z.div_lt; lia]. }
  assert (Hsum : fold_right Z.add 0 (displayFactors n) = naive_divisor_sum n).
  { rewrite displayFactors_filter by lia. cbn [fold_right].
    rewrite sum_filter_Zsum. unfold naive_divisor_sum.
    replace (Z.to_nat (n - 1))
      with (1 + (Z.to_nat (n / 2 - 1) + Z.to_nat (n - 1 - n / 2)))%nat by lia.
    rewrite Zseq_app, Zsum_app, Zseq_app, Zsum_app.
    cbn [Zseq]. rewrite Zsum_cons. cbn [Zsum fold_right].
    replace (divisor_term n 1) with 1
      by (unfold divisor_term; rewrite Z.mod_1_r; reflexivity).
    replace (1 + Z.of_nat 1) with 2 by lia.
    rewrite (Zsum_ext_in (divisor_term n) (fun _ => 0)
               (Zseq (2 + Z.of_nat (Z.to_nat (n / 2 - 1))) _)).
    - rewrite Zsum_zero.
      rewrite (Zsum_ext_in (fun d => if Z.rem n d =? 0 then d else 0) (divisor_term n)).
      + lia.
      + intros d Hd. apply In_Zseq in Hd. unfold divisor_term.
        rewrite Z.rem_mod_nonneg by lia. reflexivity.
    - intros d Hd. apply In_Zseq in Hd. apply no_divisor_above_half; lia. }
  split; [exact Hsum|].
  intros Hfit Hacc. rewrite Hsum.
  destruct (pairedDivisorSum_naive n ltac:(lia) Hfit) as [Hpair _].
  revert Hacc. unfold isPerfectNumber, isPerfectNumber_run.
  destruct (Int.rem n 2 =? 1); cbn [fst]; [discriminate|].
  rewrite Hpair. destruct (Z.eqb_spec (naive_divisor_sum n) n); [auto|discriminate].
Qed.

Lemma displayed_factors_sum_witness :
  fold_right Z.add 0 (displayFactors 496) = naive_divisor_sum 496 /\
  (sigma 496 <= Int.max_signed -> isPerfectNumber 496 = TRUE ->
   fold_right Z.add 0 (displayFactors 496) = 496).
Proof.
  apply (displayed_factors_sum 496).
  unfold Int.max_signed, Int.half_modulus. lia.
Defined.

(** ** The scan of [main] *)

Lemma main_fold_calls (l : list Z) : forall log,
  fold_left (fun log c => main_body c log) l log =
  log ++ flat_map report_calls (filter (fun n => isPerfectNumber n =? TRUE) l).
Proof.
  induction l as [|c l IH]; intros log; cbn [fold_left filter flat_map].
  - now rewrite app_nil_r.
  - rewrite IH. unfold main_body.
    destruct (isPerfectNumber_boolean c) as [E|E]; rewrite E; cbn [Z.eqb negb TRUE FALSE].
    + cbn [flat_map]. rewrite <- app_assoc. reflexivity.
    + reflexivity.
Qed.

(** X6.  [main] makes, for each accepted candidate in increasing order,
    the calls [displayFactors], [displayExpectedSqrt], [computeSquareRoot], and
    no call for any other candidate; with the default range these are the
    twelve calls for 6, 28, 496 and 8128. *)
Theorem main_call_sequence :
  main_calls =
  flat_map report_calls (filter (fun n => isPerfectNumber n =? TRUE) candidates) /\
  main_calls = flat_map report_calls [6; 28; 496; 8128] /\
  forall c, In (DisplayFactors c) main_calls ->
    RANGE_LOWER_BOUND <= c <= RANGE_UPPER_BOUND /\ isPerfectNumber c = TRUE.
Proof.
  assert (E : main_calls =
              flat_map report_calls
                (filter (fun n => isPerfectNumber n =? TRUE) candidates)).
  { unfold main_calls. rewrite for_loop_fold by (first [discriminate | reflexivity]).
    rewrite main_fold_calls. reflexivity. }
  split; [exact E|]. split; [rewrite E, perfect_scan; reflexivity|].
  intros c Hc. rewrite E in Hc. apply in_flat_map in Hc.
  destruct Hc as (x & Hx & Hin). apply filter_In in Hx. destruct Hx as [Hx Hacc].
  cbn in Hin. destruct Hin as [[= <-]|[H|[H|[]]]]; try discriminate H.
  split; [now apply In_candidates|now apply Z.eqb_eq].
Qed.

Lemma main_call_sequence_witness :
  RANGE_LOWER_BOUND <= 28 <= RANGE_UPPER_BOUND /\ isPerfectNumber 28 = TRUE.
Proof.
  apply (proj2 (proj2 main_call_sequence) 28).
  rewrite (proj1 (proj2 main_call_sequence)). cbn. tauto.
Defined.

(** ** The guard of the tester, in [double] *)

(** X7.  For every number from 0 to [RANGE_UPPER_BOUND] and every count
    from 1 to 101 the guard [count <= sqrt(number)], evaluated in binary64 with
    a correctly rounded [sqrt], holds exactly when [count * count <= number]:
    the floating-point guard loses no divisor and lets in no count above the
    root, perfect squares included. *)
Theorem sqrt_guard_exact (number count : Z) :
  0 <= number <= RANGE_UPPER_BOUND -> 1 <= count <= 101 ->
  (SFleb (float_of_Z binary64 count) (SFsqrt 53 1024 (float_of_Z binary64 number)) = true
   <-> count * count <= number).
Proof.
  intros Hn Hc.
  generalize sqrt_guard_scan. rewrite forallb_forall. intros Hscan.
  specialize (Hscan number). unfold guard_agrees in Hscan. cbv zeta in Hscan.
  rewrite forallb_forall in Hscan.
  assert (Hin : In number (Zseq 0 (Z.to_nat (RANGE_UPPER_BOUND + 1))))
    by (apply In_Zseq; unfold RANGE_UPPER_BOUND in *; lia).
  specialize (Hscan Hin (count, float_of_Z binary64 count)).
  cbn [fst snd] in Hscan.
  assert (Hcount : In (count, float_of_Z binary64 count)
                      (map (fun c => (c, float_of_Z binary64 c)) (Zseq 1 101))).
  { apply in_map_iff. exists count. split; [reflexivity|]. apply In_Zseq. lia. }
  apply Hscan, Bool.eqb_prop in Hcount. rewrite Hcount, Z.leb_le.
  generalize (Z.sqrt_spec number ltac:(lia)) (Z.sqrt_nonneg number).
  unfold Z.succ. intros Hsq Hs. split; intros H; [nia|].
  assert (count < Z.sqrt number + 1) by nia. lia.
Qed.

Lemma sqrt_guard_exact_witness :
  SFleb (float_of_Z binary64 99) (SFsqrt 53 1024 (float_of_Z binary64 9801)) = true
  <-> 99 * 99 <= 9801.
Proof.
  apply (sqrt_guard_exact 9801 99); unfold RANGE_UPPER_BOUND; lia.
Defined.

(** * Further properties of the solver *)

(** ** Any arithmetic *)

(** X8.  In every reading of the arithmetic, IEEE included: with fewer
    than [INT_MAX] rounds of fuel, [computeSquareRoot] returns a report exactly
    when some round [n >= 1] within the fuel is the first whose test fails;
    the report then shows the guess after [n] rounds and the count [1 + n].
    So a returned count is at least 2 and counts the rounds run, plus one. *)
Theorem solver_returns_first_stop {F : CFloat} (radicand : double) (fuel : nat)
        (rep : solver_report ldouble double) :
  Z.of_nat fuel < Int.max_signed ->
  (computeSquareRoot fuel radicand = Some rep <->
   exists n, (1 <= n <= fuel)%nat /\
             stops_at radicand (initial_state radicand) n /\
             shown rep = guess (nth_state radicand n) /\
             reached rep = 1 + Z.of_nat n /\
             returned rep = narrow (guess (nth_state radicand n))) /\
  (computeSquareRoot fuel radicand = Some rep -> 2 <= reached rep <= 1 + Z.of_nat fuel).
Proof.
  intros Hfuel.
  assert (Hcount : forall n, (n <= fuel)%nat ->
            iterations (nth_state radicand n) = 1 + Z.of_nat n).
  { intros n Hn. rewrite nth_state_unfold, iterations_iter;
      [reflexivity|discriminate|cbn [iterations initial_state]; lia]. }
  assert (Hiff : computeSquareRoot fuel radicand = Some rep <->
   exists n, (1 <= n <= fuel)%nat /\
             stops_at radicand (initial_state radicand) n /\
             shown rep = guess (nth_state radicand n) /\
             reached rep = 1 + Z.of_nat n /\
             returned rep = narrow (guess (nth_state radicand n))).
  { unfold computeSquareRoot. split.
    - destruct (do_while fuel radicand (initial_state radicand)) as [st|] eqn:E;
        [|discriminate].
      intros [= <-]. apply do_while_stops in E.
      destruct E as (n & Hn & Hstop & ->). exists n.
      rewrite <- nth_state_unfold. cbn [shown reached returned].
      rewrite (Hcount n Hn).
      assert (1 <= n)%nat by apply Hstop.
      split; [lia|]. split; [exact Hstop|]. repeat split.
    - intros (n & Hn & Hstop & Hs & Hr & Hret).
      assert (E : do_while fuel radicand (initial_state radicand)
                  = Some (nth_state radicand n)).
      { apply do_while_stops. exists n. split; [lia|]. split; [exact Hstop|].
        apply nth_state_unfold. }
      rewrite E, (Hcount n ltac:(lia)), <- Hret, <- Hs, <- Hr.
      destruct rep; reflexivity. }
  split; [exact Hiff|].
  intros H. apply Hiff in H. destruct H as (n & Hn & _ & _ & Hr & _). lia.
Qed.

Lemma solver_returns_first_stop_witness :
  (computeSquareRoot (F := IEEE x87_extended ref_libm) 6 (float_of_Z binary64 6) =
   Some {| shown := S754_finite false 11296277599074481128 (-62);
           reached := 7;
           returned := S754_finite false 5515760546423086 (-51) |} <->
   exists n, (1 <= n <= 6)%nat /\
             stops_at (F := IEEE x87_extended ref_libm) (float_of_Z binary64 6)
               (initial_state (F := IEEE x87_extended ref_libm) (float_of_Z binary64 6)) n /\
             S754_finite false 11296277599074481128 (-62)
             = guess (nth_state (F := IEEE x87_extended ref_libm) (float_of_Z binary64 6) n) /\
             7 = 1 + Z.of_nat n /\
             S754_finite false 5515760546423086 (-51)
             = round_to binary64
                 (guess (nth_state (F := IEEE x87_extended ref_libm)
                           (float_of_Z binary64 6) n))) /\
  (computeSquareRoot (F := IEEE x87_extended ref_libm) 6 (float_of_Z binary64 6) =
   Some {| shown := S754_finite false 11296277599074481128 (-62);
           reached := 7;
           returned := S754_finite false 5515760546423086 (-51) |} ->
   2 <= 7 <= 1 + Z.of_nat 6).
Proof.
  apply (solver_returns_first_stop (F := IEEE x87_extended ref_libm)
           (float_of_Z binary64 6) 6
           {| shown := S754_finite false 11296277599074481128 (-62);
              reached := 7;
              returned := S754_finite false 5515760546423086 (-51) |}).
  reflexivity.
Defined.

(** ** The IEEE reading: radicands that are not numbers, and the display *)

Lemma ref_libm_annex_F_nonfinite : annex_F_nonfinite ref_libm.
Proof.
  unfold annex_F_nonfinite. split; [|split; [|split]].
  - reflexivity.
  - reflexivity.
  - vm_compute. reflexivity.
  - vm_compute. reflexivity.
Qed.

(** X12.  With a libm that follows Annex F, a radicand that is plus
    infinity or NaN also makes the call run exactly one round and return NaN
    with a count of 2: infinity gives an infinite guess and [inf / inf]. *)
Theorem nonfinite_radicand_yields_nan (ld : format) (lm : libm)
        (radicand : spec_float) (fuel : nat) :
  annex_F_nonfinite lm ->
  radicand = S754_infinity false \/ radicand = S754_nan ->
  (1 <= fuel)%nat ->
  computeSquareRoot (F := IEEE ld lm) fuel radicand =
  Some {| shown := S754_nan; reached := 2; returned := S754_nan |}.
Proof.
  intros (Hinf & Hnan & Hpow_inf & Hpow_nan) Hr Hfuel.
  destruct fuel as [|fuel]; [lia|].
  unfold computeSquareRoot, initial_state. rewrite ieee_initial_guess.
  destruct Hr as [-> | ->].
  - rewrite Hinf. cbn [SFceil].
    change (SFdiv 53 1024 (S754_infinity false) (float_of_Z binary64 2))
      with (S754_infinity false).
    rewrite Hpow_inf. rewrite nan_step_ends; reflexivity.
  - rewrite Hnan. cbn [SFceil].
    change (SFdiv 53 1024 S754_nan (float_of_Z binary64 2)) with S754_nan.
    rewrite Hpow_nan. rewrite nan_step_ends; reflexivity.
Qed.

Lemma nonfinite_radicand_yields_nan_witness :
  computeSquareRoot (F := IEEE x87_extended ref_libm) 1 (S754_infinity false) =
  Some {| shown := S754_nan; reached := 2; returned := S754_nan |}.
Proof.
  apply (nonfinite_radicand_yields_nan x87_extended ref_libm (S754_infinity false) 1).
  - exact ref_libm_annex_F_nonfinite.
  - left. reflexivity.
  - apply Nat.le_refl.
Defined.

(** The solver under a libm that is accurate at [radicand]: it runs as under
    a libm fixed to one of 25 pairs of values. *)
Lemma close_libm_fixed (ld : format) (lm : libm) (radicand digits : Z) :
  libm_close_at lm radicand digits ->
  exists g0 lim,
    In g0 (within_2ulp (SFsqrt 53 1024 (float_of_Z binary64 (10 ^ digits)))) /\
    In lim (within_2ulp (SFdiv 53 1024 SFone (float_of_Z binary64 (10 ^ 15)))) /\
    forall fuel,
      computeSquareRoot (F := IEEE ld lm) fuel (float_of_Z binary64 radicand) =
      computeSquareRoot (F := IEEE ld (fixed_libm g0 lim)) fuel
        (float_of_Z binary64 radicand).
Proof.
  intros (Hlog & Hg & Hl).
  eexists. eexists. split; [exact Hg|]. split; [exact Hl|].
  apply ieee_solver_fixed; [|reflexivity].
  rewrite ieee_initial_guess, Hlog. reflexivity.
Qed.

(** X13.  With [long double] in the x87 or the binary128 format and a
    libm accurate at the radicand, each of the four calls of [main] returns
    within six rounds, with counts 7, 7, 7 and 6; the value shown is within
    [10^-15] of the square root, its 15 printed decimals are those of the line
    [displayExpectedSqrt] prints, and they are the decimals of the true root
    rounded to nearest. *)
Theorem computed_matches_expected (lm : libm) (ld : format) (r digits count : Z) :
  In (r, digits, count) [(6, 1, 7); (28, 2, 7); (496, 3, 7); (8128, 4, 6)] ->
  In ld [x87_extended; binary128] ->
  libm_close_at lm r digits ->
  exists (rep : solver_report spec_float spec_float) (d : Z),
    computeSquareRoot (F := IEEE ld lm) 6 (float_of_Z binary64 r) = Some rep /\
    reached rep = count /\
    (Rabs (SF2R (shown rep) - sqrt (IZR r)) <= / 10 ^ 15)%R /\
    decimals15 (shown rep) = Some d /\
    decimals15 (displayExpectedSqrt ld (float_of_Z binary64 r)) = Some d /\
    (2 * d - 1) ^ 2 < 4 * r * 10 ^ 30 < (2 * d + 1) ^ 2.
Proof.
  intros Hr Hld Hlm.
  destruct (close_libm_fixed ld lm r digits Hlm) as (g0 & lim & Hg & Hl & Hsame).
  assert (Hrun : exists (rep : solver_report spec_float spec_float) (d : Z),
            computeSquareRoot (F := IEEE ld (fixed_libm g0 lim)) 6
              (float_of_Z binary64 r) = Some rep /\
            reached rep = count /\
            close_to_sqrt r (shown rep) = true /\
            decimals15 (shown rep) = Some d /\
            decimals15 (displayExpectedSqrt ld (float_of_Z binary64 r)) = Some d /\
            ((2 * d - 1) ^ 2 <? 4 * r * 10 ^ 30) && (4 * r * 10 ^ 30 <? (2 * d + 1) ^ 2)
            = true).
  { clear Hsame Hlm lm. cbn [In] in Hr, Hld. split_cases; subst ld.
    all: vm_compute in Hg, Hl; split_cases; subst g0 lim.
    all: eexists; eexists; split; [vm_compute; reflexivity|];
         split; [reflexivity|]; split; [vm_compute; reflexivity|];
         split; [vm_compute; reflexivity|]; split; vm_compute; reflexivity. }
  destruct Hrun as (rep & d & Hrep & Hcount & Hclose & Hd & He & Hround).
  exists rep, d. rewrite Hsame.
  apply andb_true_iff in Hround. rewrite !Z.ltb_lt in Hround.
  repeat split; try tauto.
  apply close_to_sqrt_sound; [|exact Hclose].
  cbn [In] in Hr. split_cases; lia.
Qed.

Lemma ref_libm_close_at_496 : libm_close_at ref_libm 496 3.
Proof.
  unfold libm_close_at. split; [vm_compute; reflexivity|].
  split; vm_compute; right; right; left; reflexivity.
Qed.

Lemma computed_matches_expected_witness :
  exists (rep : solver_report spec_float spec_float) (d : Z),
    computeSquareRoot (F := IEEE x87_extended ref_libm) 6 (float_of_Z binary64 496)
    = Some rep /\
    reached rep = 7 /\
    (Rabs (SF2R (shown rep) - sqrt (IZR 496)) <= / 10 ^ 15)%R /\
    decimals15 (shown rep) = Some d /\
    decimals15 (displayExpectedSqrt x87_extended (float_of_Z binary64 496)) = Some d /\
    (2 * d - 1) ^ 2 < 4 * 496 * 10 ^ 30 < (2 * d + 1) ^ 2.
Proof.
  apply (computed_matches_expected ref_libm x87_extended 496 3 7).
  - right. right. left. reflexivity.
  - left. reflexivity.
  - exact ref_libm_close_at_496.
Defined.

(** X14.  With [long double] no wider than [double] (binary64) and a libm
    accurate at 496, the call on 496 still returns with a count of 7, but the
    15 decimals it shows, ...090, differ from those of the line
    [displayExpectedSqrt] prints, ...086, and neither is the true root rounded
    to 15 decimals, ...088: the precision the note in the source found
    missing. *)
Theorem double_precision_falls_short (lm : libm) :
  libm_close_at lm 496 3 ->
  exists rep : solver_report spec_float spec_float,
    computeSquareRoot (F := IEEE binary64 lm) 6 (float_of_Z binary64 496) = Some rep /\
    reached rep = 7 /\
    decimals15 (shown rep) = Some 22271057451320090 /\
    decimals15 (displayExpectedSqrt binary64 (float_of_Z binary64 496))
    = Some 22271057451320086 /\
    decimals15 (shown rep)
    <> decimals15 (displayExpectedSqrt binary64 (float_of_Z binary64 496)) /\
    (2 * 22271057451320088 - 1) ^ 2 < 4 * 496 * 10 ^ 30 < (2 * 22271057451320088 + 1) ^ 2.
Proof.
  intros Hlm.
  destruct (close_libm_fixed binary64 lm 496 3 Hlm) as (g0 & lim & Hg & Hl & Hsame).
  assert (Hrun : exists rep : solver_report spec_float spec_float,
            computeSquareRoot (F := IEEE binary64 (fixed_libm g0 lim)) 6
              (float_of_Z binary64 496) = Some rep /\
            reached rep = 7 /\
            decimals15 (shown rep) = Some 22271057451320090).
  { clear Hsame Hlm lm. vm_compute in Hg, Hl. split_cases; subst g0 lim.
    all: eexists; split; [vm_compute; reflexivity|]; split; reflexivity. }
  destruct Hrun as (rep & Hrep & Hcount & Hd).
  assert (He : decimals15 (displayExpectedSqrt binary64 (float_of_Z binary64 496))
               = Some 22271057451320086) by (vm_compute; reflexivity).
  exists rep. rewrite Hsame, Hd, He.
  split; [exact Hrep|]. split; [exact Hcount|]. split; [reflexivity|].
  split; [reflexivity|]. split; [discriminate|]. split; reflexivity.
Qed.

Lemma double_precision_falls_short_witness :
  exists rep : solver_report spec_float spec_float,
    computeSquareRoot (F := IEEE binary64 ref_libm) 6 (float_of_Z binary64 496)
    = Some rep /\
    reached rep = 7 /\
    decimals15 (shown rep) = Some 22271057451320090 /\
    decimals15 (displayExpectedSqrt binary64 (float_of_Z binary64 496))
    = Some 22271057451320086 /\
    decimals15 (shown rep)
    <> decimals15 (displayExpectedSqrt binary64 (float_of_Z binary64 496)) /\
    (2 * 22271057451320088 - 1) ^ 2 < 4 * 496 * 10 ^ 30 < (2 * 22271057451320088 + 1) ^ 2.
Proof.
  apply (double_precision_falls_short ref_libm).
  exact ref_libm_close_at_496.
Defined.

(** ** The IEEE reading: the guesses, perfect squares and powers of ten *)

Lemma descent_sound (ld : format) (radicand : spec_float) (rounds : nat) :
  forall st last,
    descent ld rounds radicand st = Some last ->
    last = guess (Nat.iter rounds (refine (F := IEEE ld ref_libm) radicand) st) /\
    forall k, (k < rounds)%nat ->
      SFleb (guess (Nat.iter (S k) (refine (F := IEEE ld ref_libm) radicand) st))
            (guess (Nat.iter k (refine (F := IEEE ld ref_libm) radicand) st)) = true.
Proof.
  induction rounds as [|rounds IH]; intros st last H.
  - injection H as <-. split; [reflexivity|]. intros k Hk. lia.
  - cbn [descent] in H. cbv zeta in H.
    destruct (SFleb (guess (refine (F := IEEE ld ref_libm) radicand st)) (guess st)) eqn:H0;
      [|discriminate].
    destruct (IH _ _ H) as [Hlast Hk].
    assert (E : forall j, Nat.iter (S j) (refine (F := IEEE ld ref_libm) radicand) st
                          = Nat.iter j (refine (F := IEEE ld ref_libm) radicand)
                              (refine (F := IEEE ld ref_libm) radicand st))
      by (intros j; apply Nat.iter_succ_r).
    split; [rewrite E; exact Hlast|].
    intros [|k] Hlt; [exact H0|].
    rewrite (E (S k)), (E k). apply Hk. lia.
Qed.

(** A report shows the guess of the round its count names. *)
Lemma report_shows_round {F : CFloat} (radicand : double) (fuel : nat)
      (rep : solver_report ldouble double) :
  Z.of_nat fuel < Int.max_signed ->
  computeSquareRoot fuel radicand = Some rep ->
  reached rep = 1 + Z.of_nat fuel ->
  shown rep = guess (nth_state radicand fuel).
Proof.
  intros Hfuel. unfold computeSquareRoot.
  destruct (do_while fuel radicand (initial_state radicand)) as [st|] eqn:E; [|discriminate].
  intros [= <-]. cbn [reached shown].
  apply do_while_stops in E. destruct E as (n & Hn & _ & ->).
  rewrite iterations_iter; [|discriminate|cbn [iterations initial_state]; lia].
  cbn [iterations initial_state]. intros Hc.
  assert (n = fuel) by lia. subst n. reflexivity.
Qed.

Lemma below_sqrt_sound (n : Z) (x : spec_float) :
  0 <= n -> below_sqrt n x = true -> (SF2R x < sqrt (IZR n))%R.
Proof.
  intros Hn. destruct x as [| | |[|] m [|e|k]]; try discriminate.
  unfold below_sqrt. rewrite Z.ltb_lt, Z.pow_2_r. intros H.
  apply IZR_lt in H. rewrite <- (positive_nat_Z k) in H. push_IZR H.
  rewrite SF2R_finite_neg.
  set (a := IZR (Zpos m)) in *. set (p := (2 ^ Pos.to_nat k)%R) in *.
  assert (Hp : (0 < p)%R) by (apply pow_lt; lra).
  assert (Ha : (0 < a)%R) by (apply IZR_lt; reflexivity).
  assert (Hn' : (0 <= IZR n)%R) by (apply IZR_le; exact Hn).
  assert (Hq : (0 <= a / p)%R).
  { apply Rmult_le_pos; [lra|]. apply Rlt_le, Rinv_0_lt_compat, Hp. }
  rewrite <- (sqrt_square (a / p) Hq). apply sqrt_lt_1_alt.
  split; [apply Rmult_le_pos; exact Hq|].
  apply (Rmult_lt_reg_r (p * p)); [nra|].
  replace (a / p * (a / p) * (p * p))%R with (a * a)%R by (field; lra).
  replace (4 ^ Pos.to_nat k)%R with (p * p)%R in H.
  - exact H.
  - unfold p. rewrite <- Rpow_mult_distr. f_equal; lra.
Qed.

Lemma ieee_nth_state_refine (ld : format) (lm : libm) (radicand : spec_float) (k : nat) :
  nth_state (F := IEEE ld lm) radicand k =
  Nat.iter k (refine (F := IEEE ld ref_libm) radicand)
    (first_state ld (getInitialGuess (F := IEEE ld lm) radicand)).
Proof. reflexivity. Qed.

Lemma descent_check_sound (ld : format) (r : Z) (rounds : nat) (below : bool)
      (g0 : spec_float) :
  descent_check ld r rounds below g0 = true ->
  let g := fun k => guess (Nat.iter k (refine (F := IEEE ld ref_libm) (float_of_Z binary64 r))
                             (first_state ld g0)) in
  (forall k, (k < rounds)%nat -> SFleb (g (S k)) (g k) = true) /\
  (below = true -> below_sqrt r (g rounds) = true).
Proof.
  unfold descent_check.
  destruct (descent ld rounds (float_of_Z binary64 r) (first_state ld g0)) as [last|] eqn:E;
    [|discriminate].
  apply descent_sound in E. destruct E as [-> Hk]. intros H.
  split; [exact Hk|]. intros ->. exact H.
Qed.

Lemma run_check_sound (ld : format) (r : Z) (rounds : nat) (v : spec_float * spec_float) :
  run_check ld r rounds v = true ->
  exists rep : solver_report spec_float spec_float,
    computeSquareRoot (F := IEEE ld (fixed_libm (fst v) (snd v))) rounds
      (float_of_Z binary64 r) = Some rep /\
    reached rep = 1 + Z.of_nat rounds.
Proof.
  unfold run_check.
  generalize (computeSquareRoot (F := IEEE ld (fixed_libm (fst v) (snd v))) rounds
                (float_of_Z binary64 r)).
  intros [rep|]; [|discriminate]. intros H. apply Z.eqb_eq in H.
  exists rep. split; [reflexivity|exact H].
Qed.

Lemma descent_table :
  forall ld, In ld long_double_formats ->
  forall r digits rounds, In (r, digits, rounds)
                            [(6, 1, 6%nat); (28, 2, 6%nat); (496, 3, 6%nat); (8128, 4, 5%nat)] ->
    forallb (descent_check ld r rounds ((prec ld =? 64) && negb (r =? 496)))
      (within_2ulp (SFsqrt 53 1024 (float_of_Z binary64 (10 ^ digits)))) = true /\
    forallb (run_check ld r rounds) (variants digits) = true.
Proof.
  intros ld Hld r digits rounds Hr. unfold long_double_formats in Hld. cbn [In] in Hld, Hr.
  split_cases; subst ld; split; vm_compute; reflexivity.
Qed.

(** X9.  For each radicand [main] passes to the solver, each of the
    three [long double] formats and a libm accurate at the radicand: no round
    raises the guess; the call returns after 6 rounds (5 for 8128) and shows
    the guess of its last round; with the x87 [long double] that value is below
    the exact square root for 6, 28 and 8128. *)
Theorem guesses_never_increase (lm : libm) (ld : format) (r digits : Z) (rounds : nat) :
  In (r, digits, rounds) [(6, 1, 6%nat); (28, 2, 6%nat); (496, 3, 6%nat); (8128, 4, 5%nat)] ->
  In ld long_double_formats ->
  libm_close_at lm r digits ->
  let g := fun k => guess (nth_state (F := IEEE ld lm) (float_of_Z binary64 r) k) in
  (forall k, (k < rounds)%nat -> SFleb (g (S k)) (g k) = true) /\
  (exists rep : solver_report spec_float spec_float,
     computeSquareRoot (F := IEEE ld lm) rounds (float_of_Z binary64 r) = Some rep /\
     reached rep = 1 + Z.of_nat rounds /\ shown rep = g rounds) /\
  (ld = x87_extended -> r <> 496 -> (SF2R (g rounds) < sqrt (IZR r))%R).
Proof.
  intros Hr Hld (Hlog & Hg & Hl) g.
  set (g0 := lm_pow lm (float_of_Z binary64 BASE_E)
               (SFdiv 53 1024 (float_of_Z binary64 digits) (float_of_Z binary64 2))) in *.
  set (lim := lm_pow lm (float_of_Z binary64 BASE_E) (float_of_Z binary64 (-15))) in *.
  assert (Eg : getInitialGuess (F := IEEE ld lm) (float_of_Z binary64 r) = g0)
    by (rewrite ieee_initial_guess, Hlog; reflexivity).
  assert (Hv : In (g0, lim) (variants digits)) by (apply in_prod; assumption).
  destruct (descent_table ld Hld r digits rounds Hr) as [Hdesc Hruns].
  rewrite forallb_forall in Hdesc, Hruns.
  destruct (descent_check_sound _ _ _ _ _ (Hdesc _ Hg)) as (Hd & Hb).
  destruct (run_check_sound _ _ _ _ (Hruns _ Hv)) as (rep & Hrep & Hcount).
  cbn [fst snd] in Hrep.
  rewrite <- (ieee_solver_fixed ld lm _ g0 lim Eg (ieee_limit ld lm)) in Hrep.
  assert (Egk : forall k, g k = guess (Nat.iter k
                  (refine (F := IEEE ld ref_libm) (float_of_Z binary64 r))
                  (first_state ld g0))).
  { intros k. unfold g. rewrite <- Eg. reflexivity. }
  split; [|split].
  - intros k Hk. rewrite !Egk. apply Hd, Hk.
  - exists rep. split; [exact Hrep|]. split; [exact Hcount|].
    apply (report_shows_round (F := IEEE ld lm) _ rounds rep); [|exact Hrep|exact Hcount].
    cbn [In] in Hr. split_cases; reflexivity.
  - intros -> Hne. rewrite Egk. apply below_sqrt_sound.
    + cbn [In] in Hr. split_cases; lia.
    + apply Hb. cbn [In] in Hr. split_cases; try reflexivity. congruence.
Qed.

Lemma ref_libm_close_at_6 : libm_close_at ref_libm 6 1.
Proof.
  unfold libm_close_at. split; [vm_compute; reflexivity|].
  split; vm_compute; right; right; left; reflexivity.
Qed.

Lemma guesses_never_increase_witness :
  let g := fun k => guess (nth_state (F := IEEE x87_extended ref_libm)
                             (float_of_Z binary64 6) k) in
  (forall k, (k < 6)%nat -> SFleb (g (S k)) (g k) = true) /\
  (exists rep : solver_report spec_float spec_float,
     computeSquareRoot (F := IEEE x87_extended ref_libm) 6 (float_of_Z binary64 6)
     = Some rep /\
     reached rep = 1 + Z.of_nat 6 /\ shown rep = g 6%nat) /\
  (x87_extended = x87_extended -> 6 <> 496 -> (SF2R (g 6%nat) < sqrt (IZR 6))%R).
Proof.
  apply (guesses_never_increase ref_libm x87_extended 6 1 6).
  - left. reflexivity.
  - left. reflexivity.
  - exact ref_libm_close_at_6.
Defined.

Lemma same_positive_eq (x y : spec_float) : same_positive x y = true -> x = y.
Proof.
  destruct x as [| | |[|] m e], y as [| | |[|] m' e']; try discriminate.
  cbn. rewrite andb_true_iff, Pos.eqb_eq, Z.eqb_eq. intros [-> ->]. reflexivity.
Qed.

Lemma exact_libm_fixed (ld : format) (lm : libm) (radicand digits : Z) :
  libm_exact_at lm radicand digits ->
  forall fuel,
    computeSquareRoot (F := IEEE ld lm) fuel (float_of_Z binary64 radicand) =
    computeSquareRoot (F := IEEE ld (exact_libm digits)) fuel (float_of_Z binary64 radicand).
Proof.
  intros (Hlog & Hg & Hl). apply ieee_solver_fixed.
  - rewrite ieee_initial_guess, Hlog. exact Hg.
  - rewrite ieee_limit. exact Hl.
Qed.

Lemma ref_libm_limit :
  lm_pow ref_libm (float_of_Z binary64 BASE_E) (float_of_Z binary64 (-15))
  = SFdiv 53 1024 SFone (float_of_Z binary64 (10 ^ 15)).
Proof.
  rewrite <- (ieee_limit x87_extended ref_libm).
  rewrite (proj2 (proj2 (proj2 (proj2 (ref_libm_values x87_extended))))).
  vm_compute. reflexivity.
Qed.

Lemma square_root_exact_table :
  forall ld, In ld long_double_formats ->
    forallb (square_root_exact ld) (Zseq 1 100) = true.
Proof.
  intros ld Hld. unfold long_double_formats in Hld. cbn [In] in Hld.
  split_cases; subst ld; vm_compute; reflexivity.
Qed.

Lemma square_root_exact_report (ld : format) (s : Z) :
  square_root_exact ld s = true ->
  exists rep : solver_report spec_float spec_float,
    computeSquareRoot (F := IEEE ld (exact_libm (ceil_log10 (s * s)))) 7
      (float_of_Z binary64 (s * s)) = Some rep /\
    2 <= reached rep <= 8 /\
    returned rep = float_of_Z binary64 s /\
    decimals15 (shown rep) = Some (s * 10 ^ PRECISION).
Proof.
  unfold square_root_exact.
  generalize (computeSquareRoot (F := IEEE ld (exact_libm (ceil_log10 (s * s)))) 7
                (float_of_Z binary64 (s * s))).
  intros [[sh re ret]|]; [|discriminate].
  cbn [shown reached returned]. intros Hall.
  exists {| shown := sh; reached := re; returned := ret |}.
  split; [reflexivity|]. cbn [shown reached returned].
  rewrite !andb_true_iff in Hall. destruct Hall as [[[H2 H8] Hret] Hd].
  apply Z.leb_le in H2, H8.
  split; [split; assumption|]. split.
  - apply same_positive_eq, Hret.
  - destruct (decimals15 sh) as [d|]; [|discriminate].
    apply Z.eqb_eq in Hd. now subst d.
Qed.

(** X10.  Perfect squares [s * s] up to 10000, in each of the three
    [long double] formats and with a libm that rounds correctly at the
    radicand: the call returns within seven rounds, the value returned is
    exactly [s], and the value shown prints as [s.000000000000000]. *)
Theorem perfect_square_root_exact (lm : libm) (ld : format) (s : Z) :
  1 <= s <= 100 ->
  In ld long_double_formats ->
  libm_exact_at lm (s * s) (ceil_log10 (s * s)) ->
  exists rep : solver_report spec_float spec_float,
    computeSquareRoot (F := IEEE ld lm) 7 (float_of_Z binary64 (s * s)) = Some rep /\
    2 <= reached rep <= 8 /\
    returned rep = float_of_Z binary64 s /\
    decimals15 (shown rep) = Some (s * 10 ^ PRECISION).
Proof.
  intros Hs Hld Hlm.
  rewrite (exact_libm_fixed ld lm _ _ Hlm).
  apply square_root_exact_report.
  generalize (square_root_exact_table ld Hld). rewrite forallb_forall. intros Hall.
  apply Hall, In_Zseq. lia.
Qed.

Lemma ref_libm_exact_at_49 : libm_exact_at ref_libm (7 * 7) (ceil_log10 (7 * 7)).
Proof.
  unfold libm_exact_at. change (ceil_log10 (7 * 7)) with 2. change (7 * 7) with 49.
  split; [vm_compute; reflexivity|]. split; [vm_compute; reflexivity|].
  exact ref_libm_limit.
Qed.

Lemma perfect_square_root_exact_witness :
  exists rep : solver_report spec_float spec_float,
    computeSquareRoot (F := IEEE x87_extended ref_libm) 7 (float_of_Z binary64 (7 * 7))
    = Some rep /\
    2 <= reached rep <= 8 /\
    returned rep = float_of_Z binary64 7 /\
    decimals15 (shown rep) = Some (7 * 10 ^ PRECISION).
Proof.
  apply (perfect_square_root_exact ref_libm x87_extended 7).
  - lia.
  - left. reflexivity.
  - exact ref_libm_exact_at_49.
Defined.

Lemma power_of_ten_table :
  forall ld, In ld long_double_formats ->
    forallb (power_of_ten_run ld) (Zseq 0 12) = true.
Proof.
  intros ld Hld. unfold long_double_formats in Hld. cbn [In] in Hld.
  split_cases; subst ld; vm_compute; reflexivity.
Qed.

Lemma power_of_ten_run_report (ld : format) (j : Z) (fuel : nat) :
  (1 <= fuel)%nat ->
  power_of_ten_run ld j = true ->
  computeSquareRoot (F := IEEE ld (exact_libm (2 * j))) fuel
    (float_of_Z binary64 (10 ^ (2 * j))) =
  Some {| shown := round_to ld (float_of_Z binary64 (10 ^ j));
          reached := 2;
          returned := float_of_Z binary64 (10 ^ j) |}.
Proof.
  intros Hfuel. unfold power_of_ten_run, computeSquareRoot.
  destruct (do_while (F := IEEE ld (exact_libm (2 * j))) 1
              (float_of_Z binary64 (10 ^ (2 * j)))
              (initial_state (F := IEEE ld (exact_libm (2 * j)))
                 (float_of_Z binary64 (10 ^ (2 * j))))) as [st|] eqn:E;
    [|discriminate].
  rewrite (do_while_fuel_mono (F := IEEE ld (exact_libm (2 * j))) _ 1 fuel _ st Hfuel E).
  generalize (guess st) (iterations st). intros sh re.
  cbn [reached shown returned]. intros Hall.
  rewrite !andb_true_iff in Hall. destruct Hall as [[Hc Hs] Hr].
  apply Z.eqb_eq in Hc. apply same_positive_eq in Hs, Hr.
  f_equal. f_equal; assumption.
Qed.

(** X11.  Radicands [10^(2j)] for [j] from 0 to 11, all of them
    [double]s, under the same hypotheses: the initial guess is exactly the
    root [10^j], the first round runs all the same, and the call returns
    [10^j] with an iteration count of 2.  [10^24] is not a [double]: on the
    [double] nearest to it the x87 run takes two rounds and shows a value below
    [10^12]. *)
Theorem even_power_of_ten_root (lm : libm) (ld : format) (j : Z) (fuel : nat) :
  0 <= j <= 11 ->
  In ld long_double_formats ->
  libm_exact_at lm (10 ^ (2 * j)) (2 * j) ->
  (1 <= fuel)%nat ->
  getInitialGuess (F := IEEE ld lm) (float_of_Z binary64 (10 ^ (2 * j)))
  = float_of_Z binary64 (10 ^ j) /\
  computeSquareRoot (F := IEEE ld lm) fuel (float_of_Z binary64 (10 ^ (2 * j))) =
  Some {| shown := round_to ld (float_of_Z binary64 (10 ^ j));
          reached := 2;
          returned := float_of_Z binary64 (10 ^ j) |} /\
  (libm_exact_at lm (10 ^ 24) 24 ->
   exists rep : solver_report spec_float spec_float,
     computeSquareRoot (F := IEEE x87_extended lm) 2 (float_of_Z binary64 (10 ^ 24))
     = Some rep /\
     reached rep = 3 /\
     SFltb (shown rep) (float_of_Z binary64 (10 ^ 12)) = true).
Proof.
  intros Hj Hld Hlm Hfuel.
  assert (Hin : In j (Zseq 0 12)) by (apply In_Zseq; lia).
  split; [|split].
  - destruct Hlm as (Hlog & Hg & _). rewrite ieee_initial_guess, Hlog, Hg.
    clear - Hin. cbn [Zseq In Z.add] in Hin. split_cases; subst j; vm_compute; reflexivity.
  - rewrite (exact_libm_fixed ld lm _ _ Hlm).
    apply power_of_ten_run_report; [exact Hfuel|].
    generalize (power_of_ten_table ld Hld). rewrite forallb_forall. intros Hall.
    apply Hall, Hin.
  - intros Hlm'. rewrite (exact_libm_fixed x87_extended lm _ _ Hlm').
    eexists. split; [vm_compute; reflexivity|]. split; vm_compute; reflexivity.
Qed.

Lemma ref_libm_exact_at_100 : libm_exact_at ref_libm (10 ^ (2 * 1)) (2 * 1).
Proof.
  unfold libm_exact_at. change (10 ^ (2 * 1)) with 100. change (2 * 1) with 2.
  split; [vm_compute; reflexivity|]. split; [vm_compute; reflexivity|].
  exact ref_libm_limit.
Qed.

Lemma even_power_of_ten_root_witness :
  getInitialGuess (F := IEEE x87_extended ref_libm) (float_of_Z binary64 (10 ^ (2 * 1)))
  = float_of_Z binary64 (10 ^ 1) /\
  computeSquareRoot (F := IEEE x87_extended ref_libm) 1 (float_of_Z binary64 (10 ^ (2 * 1))) =
  Some {| shown := round_to x87_extended (float_of_Z binary64 (10 ^ 1));
          reached := 2;
          returned := float_of_Z binary64 (10 ^ 1) |} /\
  (libm_exact_at ref_libm (10 ^ 24) 24 ->
   exists rep : solver_report spec_float spec_float,
     computeSquareRoot (F := IEEE x87_extended ref_libm) 2 (float_of_Z binary64 (10 ^ 24))
     = Some rep /\
     reached rep = 3 /\
     SFltb (shown rep) (float_of_Z binary64 (10 ^ 12)) = true).
Proof.
  apply (even_power_of_ten_root ref_libm x87_extended 1 1).
  - lia.
  - left. reflexivity.
  - exact ref_libm_exact_at_100.
  - apply Nat.le_refl.
Defined.
